(** * fbzmq: the socket core of [fbzmq/zmq/Socket.h]

    A shallow embedding of the header's inline code: the static (variadic)
    multi-frame receive and send templates, the thrift convenience
    templates, the [const] queries, the role sub-classes and the two
    [Socket<>] specialisations, together with the declarations the header
    makes for the methods whose bodies live in the translation unit.

    The out-of-line methods ([recvOne], [hasMore], [sendOne], [sendMore],
    [bind], ...) are calls into an implementation the header only declares.
    A template body is therefore a program over those calls: a tree whose
    nodes are calls and whose leaves are return values.  It is run against
    any implementation of the calls, which yields the returned value, the
    final state and the ordered list of calls that were made. *)

From Stdlib Require Import String Ascii ZArith List Bool Lia.
Import ListNotations.
Open Scope Z_scope.

Set Implicit Arguments.

(** ** Values of the interface *)

(** [folly::Expected<V, Error>]: the value or the error. *)
Inductive Expected (V E : Type) : Type :=
| Value (v : V)
| Unexpected (e : E).
Arguments Value {V E} v.
Arguments Unexpected {V E} e.

Definition hasValue {V E} (x : Expected V E) : bool :=
  match x with Value _ => true | Unexpected _ => false end.

(** [fbzmq::Error], built from an [errno] number ([Error(int)]). *)
Record Error : Type := mkError { errNum : Z }.

(** [errno] numbers the code names (Linux values) and the one flag of
    [zmq.h] the header reads. *)
Definition EPROTO : Z := 71.
Definition EAGAIN : Z := 11.
Definition EINTR : Z := 4.
Definition ZMQ_DONTWAIT : Z := 1.

(** [fbzmq::Message]: one frame, a byte buffer. *)
Definition Message : Type := list Byte.byte.

(** [std::chrono::milliseconds] *)
Definition milliseconds : Type := Z.

(** [size_t] on the 64-bit targets of the library; [+] wraps. *)
Definition size_t : Type := Z.
Definition size_add (a b : size_t) : size_t := (a + b) mod 2 ^ 64.

(** [BOOST_STRONG_TYPEDEF(std::string, ...)] *)
Record SocketUrl : Type := mkSocketUrl { urlString : string }.
Record IdentityString : Type := mkIdentityString { identityString : string }.
Record PublicKey : Type := mkPublicKey { publicKeyString : string }.
Record NonblockingFlag : Type := mkNonblockingFlag { nonblocking : bool }.

(** [fbzmq::KeyPair] (Common.h): a private and a public key. *)
Record KeyPair : Type := mkKeyPair { privateKey : string; publicKey : string }.

(** [enum SocketMode { ZMQ_CLIENT, ZMQ_SERVER, UNKNOWN }] *)
Inductive SocketMode : Type := ZMQ_CLIENT | ZMQ_SERVER | UNKNOWN.

(** ** Calls into the out-of-line part of [SocketImpl] *)

Inductive SocketCall : Type -> Type :=
| recvOneC (timeout : option milliseconds) : SocketCall (Expected Message Error)
| hasMoreC : SocketCall bool
| sendOneC (msg : Message) : SocketCall (Expected size_t Error)
| sendMoreC (msg : Message) : SocketCall (Expected size_t Error)
| bindC (url : SocketUrl) : SocketCall (Expected unit Error)
| unbindC (url : SocketUrl) : SocketCall (Expected unit Error)
| connectC (url : SocketUrl) : SocketCall (Expected unit Error)
| disconnectC (url : SocketUrl) : SocketCall (Expected unit Error)
| addServerKeyC (url : SocketUrl) (key : PublicKey)
    : SocketCall (Expected unit Error)
| delServerKeyC (url : SocketUrl) : SocketCall (Expected unit Error).

(** A call together with what it returned: one entry of the log of a run. *)
Inductive Event : Type :=
| EvRecvOne (timeout : option milliseconds) (r : Expected Message Error)
| EvHasMore (r : bool)
| EvSendOne (msg : Message) (r : Expected size_t Error)
| EvSendMore (msg : Message) (r : Expected size_t Error)
| EvBind (url : SocketUrl) (r : Expected unit Error)
| EvUnbind (url : SocketUrl) (r : Expected unit Error)
| EvConnect (url : SocketUrl) (r : Expected unit Error)
| EvDisconnect (url : SocketUrl) (r : Expected unit Error)
| EvAddServerKey (url : SocketUrl) (key : PublicKey) (r : Expected unit Error)
| EvDelServerKey (url : SocketUrl) (r : Expected unit Error).

Definition event_of {R} (c : SocketCall R) : R -> Event :=
  match c in SocketCall R0 return R0 -> Event with
  | recvOneC t => EvRecvOne t
  | hasMoreC => EvHasMore
  | sendOneC m => EvSendOne m
  | sendMoreC m => EvSendMore m
  | bindC u => EvBind u
  | unbindC u => EvUnbind u
  | connectC u => EvConnect u
  | disconnectC u => EvDisconnect u
  | addServerKeyC u k => EvAddServerKey u k
  | delServerKeyC u => EvDelServerKey u
  end.

(** ** Method bodies as programs over the calls *)

Inductive Prog (A : Type) : Type :=
| Ret (a : A)
| Call (R : Type) (c : SocketCall R) (k : R -> Prog A).
Arguments Ret {A} a.
Arguments Call {A R} c k.

Fixpoint pbind {A B} (p : Prog A) (f : A -> Prog B) : Prog B :=
  match p with
  | Ret a => f a
  | Call c k => Call c (fun r => pbind (k r) f)
  end.

Definition call {R} (c : SocketCall R) : Prog R := Call c Ret.

Declare Scope prog_scope.
Delimit Scope prog_scope with prog.
Notation "x <- p ;; q" := (pbind p (fun x => q))
  (at level 61, p at next level, right associativity) : prog_scope.
Open Scope prog_scope.

(** An implementation of the declared methods over a state [S]. *)
Definition Impl (S : Type) : Type := forall R, SocketCall R -> S -> R * S.

(** The outcome of running a body: its value, the state it leaves and the
    calls it made, in order. *)
Record Run (A S : Type) : Type :=
  mkRun { result : A; final : S; trace : list Event }.

Fixpoint run {A S} (h : Impl S) (p : Prog A) (s : S) : Run A S :=
  match p with
  | Ret a => mkRun a s []
  | Call c k =>
      let (r, s1) := h _ c s in
      let o := run h (k r) s1 in
      mkRun (result o) (final o) (event_of c r :: trace o)
  end.

(** The declared methods, as seen from an inline body. *)
Definition recvOne (timeout : option milliseconds) := call (recvOneC timeout).
Definition hasMore := call hasMoreC.
Definition sendOne (msg : Message) := call (sendOneC msg).
Definition sendMore (msg : Message) := call (sendMoreC msg).

(** ** Static multi-frame receive (Socket.h 173-212)

    A call with slots [msg, msgs...] picks the one-slot overload when
    [msgs] is empty and the [First, Rest...] overload otherwise.  The slots
    are references: the body returns their contents after the call next to
    the [Expected] it returns. *)
Fixpoint recvMultipleTimeout (timeout : option milliseconds)
    (msg : Message) (msgs : list Message)
  : Prog (Expected unit Error * list Message) :=
  match msgs with
  | [] =>
      tmp <- recvOne timeout ;;
      match tmp with
      | Unexpected e => Ret (Unexpected e, [msg])
      | Value v =>
          let msg := v in
          more <- hasMore ;;
          if negb more then Ret (Value tt, [msg])
          else (* more message when we dont expect 'em *)
            Ret (Unexpected (mkError EPROTO), [msg])
      end
  | next :: rest =>
      tmp <- recvOne timeout ;;
      match tmp with
      | Unexpected e => Ret (Unexpected e, msg :: msgs)
      | Value v =>
          let msg := v in
          more <- hasMore ;;
          if negb more then Ret (Unexpected (mkError EPROTO), msg :: msgs)
          else
            (* if the first message arrives, the rest shall have arrived,
               so no timeout *)
            r <- recvMultipleTimeout None next rest ;;
            Ret (fst r, msg :: snd r)
      end
  end.

Definition recvMultiple (msg : Message) (msgs : list Message)
  : Prog (Expected unit Error * list Message) :=
  recvMultipleTimeout None msg msgs.

(** ** Static multi-frame send (Socket.h 245-273)

    [hasMore] is the template's [bool] parameter.  [res.value() +
    other.value()] is an addition of [size_t]. *)
Fixpoint sendMultiple (hasMore : bool) (msg : Message) (msgs : list Message)
  : Prog (Expected size_t Error) :=
  match msgs with
  | [] => if hasMore then sendMore msg else sendOne msg
  | next :: rest =>
      res <- sendMore msg ;;
      match res with
      | Unexpected e => Ret (Unexpected e)
      | Value n =>
          other <- sendMultiple hasMore next rest ;;
          match other with
          | Unexpected e => Ret (Unexpected e)
          | Value n' => Ret (Value (size_add n n'))
          end
      end
  end.

Definition sendMultipleMore (msg : Message) (msgs : list Message)
  : Prog (Expected size_t Error) :=
  sendMultiple true msg msgs.

(** ** Thrift convenience templates (Socket.h 286-305)

    [Message::readThriftObj] and [Message::fromThriftObj] belong to
    Message.h; the templates are generic in them. *)
Section Thrift.
Variables ThriftType Serializer : Type.
Variable readThriftObj : Message -> Serializer -> Expected ThriftType Error.
Variable fromThriftObj : ThriftType -> Serializer -> Expected Message Error.

Definition recvThriftObj (serializer : Serializer)
    (timeout : option milliseconds) : Prog (Expected ThriftType Error) :=
  maybeMessage <- recvOne timeout ;;
  match maybeMessage with
  | Unexpected e => Ret (Unexpected e)
  | Value m => Ret (readThriftObj m serializer)
  end.

Definition sendThriftObj (obj : ThriftType) (serializer : Serializer)
  : Prog (Expected size_t Error) :=
  let msg := fromThriftObj obj serializer in
  match msg with
  | Unexpected e => Ret (Unexpected e)
  | Value m => sendOne m
  end.
End Thrift.

(** ** The object: data members of [SocketImpl] (Socket.h 402-438)

    Pointers are addresses, [0] being [nullptr]. *)
Definition nullptr : Z := 0.

(** [folly::fibers::Baton], as far as a waiter is concerned. *)
Inductive Baton : Type := BatonIdle | BatonWaiting | BatonPosted.

Record SocketImpl : Type := mkSocketImpl {
  baseFlags_ : Z;
  isSendingMore_ : bool;
  ptr_ : Z;
  ctxPtr_ : Z;
  keyPair_ : option KeyPair;
  serverKeys_ : list (string * string);
  evb_ : Z;
  waitEvents_ : Z;
  fiberReadBaton_ : Baton;
  fiberWriteBaton_ : Baton
}.

(** A member function acting on the object: the value it returns and the
    object after the call. *)
Definition Method (A : Type) : Type := SocketImpl -> A * SocketImpl.

(** [bool isNonBlocking() const { return baseFlags_ & ZMQ_DONTWAIT; }]:
    the [int] converts to [bool] as "not zero". *)
Definition isNonBlocking : Method bool :=
  fun this => (negb (Z.land (baseFlags_ this) ZMQ_DONTWAIT =? 0), this).

(** [folly::Optional<KeyPair> getKeyPair() const { return keyPair_; }] *)
Definition getKeyPair : Method (option KeyPair) :=
  fun this => (keyPair_ this, this).

(** ** The role sub-classes and the [Socket<>] specialisations
    (Socket.h 342-353, 447-519) *)

(** The six methods [SocketImpl] declares under [protected:]. *)
Definition SocketImpl_bind (url : SocketUrl) := call (bindC url).
Definition SocketImpl_unbind (url : SocketUrl) := call (unbindC url).
Definition SocketImpl_connect (url : SocketUrl) := call (connectC url).
Definition SocketImpl_disconnect (url : SocketUrl) := call (disconnectC url).
Definition SocketImpl_addServerKey (url : SocketUrl) (key : PublicKey) :=
  call (addServerKeyC url key).
Definition SocketImpl_delServerKey (url : SocketUrl) :=
  call (delServerKeyC url).

(** [class ServerSocketImpl : public SocketImpl] *)
Definition ServerSocketImpl_bind (url : SocketUrl) := SocketImpl_bind url.
Definition ServerSocketImpl_unbind (url : SocketUrl) := SocketImpl_unbind url.

(** [class ClientSocketImpl : public SocketImpl] *)
Definition ClientSocketImpl_connect (url : SocketUrl) :=
  SocketImpl_connect url.
Definition ClientSocketImpl_disconnect (url : SocketUrl) :=
  SocketImpl_disconnect url.
Definition ClientSocketImpl_addServerKey (url : SocketUrl) (key : PublicKey) :=
  SocketImpl_addServerKey url key.
Definition ClientSocketImpl_delServerKey (url : SocketUrl) :=
  SocketImpl_delServerKey url.

(** A use of one of the six role methods, with its arguments. *)
Inductive RoleCall : Type :=
| DoBind (url : SocketUrl)
| DoUnbind (url : SocketUrl)
| DoConnect (url : SocketUrl)
| DoDisconnect (url : SocketUrl)
| DoAddServerKey (url : SocketUrl) (key : PublicKey)
| DoDelServerKey (url : SocketUrl).

(** What the protected method of [SocketImpl] of that name does. *)
Definition SocketImpl_call (c : RoleCall) : Prog (Expected unit Error) :=
  match c with
  | DoBind u => SocketImpl_bind u
  | DoUnbind u => SocketImpl_unbind u
  | DoConnect u => SocketImpl_connect u
  | DoDisconnect u => SocketImpl_disconnect u
  | DoAddServerKey u k => SocketImpl_addServerKey u k
  | DoDelServerKey u => SocketImpl_delServerKey u
  end.

(** What a caller holding a [Socket<SocketType, mode>] gets for a role
    call: the public member of the sub-class the specialisation derives
    from, or nothing where the name is still protected (the call does not
    compile) or the specialisation is only forward-declared ([UNKNOWN]). *)
Definition Socket_call (mode : SocketMode) (c : RoleCall)
  : option (Prog (Expected unit Error)) :=
  match mode, c with
  | ZMQ_SERVER, DoBind u => Some (ServerSocketImpl_bind u)
  | ZMQ_SERVER, DoUnbind u => Some (ServerSocketImpl_unbind u)
  | ZMQ_CLIENT, DoConnect u => Some (ClientSocketImpl_connect u)
  | ZMQ_CLIENT, DoDisconnect u => Some (ClientSocketImpl_disconnect u)
  | ZMQ_CLIENT, DoAddServerKey u k => Some (ClientSocketImpl_addServerKey u k)
  | ZMQ_CLIENT, DoDelServerKey u => Some (ClientSocketImpl_delServerKey u)
  | _, _ => None
  end.

(** The user-provided constructor arguments: the three overloads of
    [SocketImpl::SocketImpl] after [type] and [isServer]. *)
Inductive CtorArgs : Type :=
| WithContext (ctx : Z) (identity : option IdentityString)
    (keyPair : option KeyPair) (isNonblocking : NonblockingFlag) (evb : Z)
| WithContextPtr (ctxPtr : Z) (identity : option IdentityString)
    (keyPair : option KeyPair) (isNonblocking : NonblockingFlag) (evb : Z)
| ContextLess.

(** A base-class initialisation [SocketImpl(type, isServer, args...)]. *)
Record BaseInit : Type :=
  mkBaseInit { initType : Z; initIsServer : bool; initArgs : CtorArgs }.

(** [explicit Socket(Args&&... args)] of the two specialisations. *)
Definition Socket_ctor (SocketType : Z) (mode : SocketMode) (args : CtorArgs)
  : option BaseInit :=
  match mode with
  | ZMQ_SERVER => Some (mkBaseInit SocketType true args)
  | ZMQ_CLIENT => Some (mkBaseInit SocketType false args)
  | UNKNOWN => None
  end.

(** ** Declarations of the header

    For the methods whose bodies are not inline, the header fixes the
    access, the return type and the exception specification.  The members
    under [FOLLY_HAS_COROUTINES] are left out. *)
Inductive Access : Type := Public | Protected | Private.

Inductive ReturnType : Type :=
| RExpected (valueType : string)  (* folly::Expected<valueType, Error> *)
| RPlain (type : string).

Record Declaration : Type := mkDecl {
  declName : string;
  declAccess : Access;
  declReturn : ReturnType;
  declNoexcept : bool
}.

Definition SocketImpl_decls : list Declaration :=
  [ mkDecl "setSockOpt" Public (RExpected "folly::Unit") true;
    mkDecl "getSockOpt" Public (RExpected "folly::Unit") true;
    mkDecl "setKeepAlive" Public (RExpected "folly::Unit") true;
    mkDecl "close" Public (RPlain "void") true;
    mkDecl "recvOne" Public (RExpected "Message") true;
    mkDecl "recvMultipleTimeout" Public (RExpected "folly::Unit") false;
    mkDecl "recvMultiple" Public (RExpected "folly::Unit") false;
    mkDecl "recvMultipleTimeout" Public (RExpected "folly::Unit") false;
    mkDecl "recvMultiple" Public (RExpected "std::vector<Message>") false;
    mkDecl "drain" Public (RExpected "std::vector<Message>") false;
    mkDecl "sendOne" Public (RExpected "size_t") true;
    mkDecl "sendMore" Public (RExpected "size_t") true;
    mkDecl "sendMultiple" Public (RExpected "size_t") false;
    mkDecl "sendMultiple" Public (RExpected "size_t") false;
    mkDecl "sendMultipleMore" Public (RExpected "size_t") false;
    mkDecl "sendMultiple" Public (RExpected "size_t") false;
    mkDecl "recvThriftObj" Public (RExpected "ThriftType") true;
    mkDecl "sendThriftObj" Public (RExpected "size_t") true;
    mkDecl "hasMore" Public (RPlain "bool") true;
    mkDecl "isNonBlocking" Public (RPlain "bool") false;
    mkDecl "getKeyPair" Public (RPlain "folly::Optional<KeyPair>") false;
    mkDecl "operator*" Public (RPlain "uintptr_t") false;
    mkDecl "bind" Protected (RExpected "folly::Unit") true;
    mkDecl "unbind" Protected (RExpected "folly::Unit") true;
    mkDecl "connect" Protected (RExpected "folly::Unit") true;
    mkDecl "disconnect" Protected (RExpected "folly::Unit") true;
    mkDecl "addServerKey" Protected (RExpected "folly::Unit") true;
    mkDecl "delServerKey" Protected (RExpected "folly::Unit") true;
    mkDecl "fiberWaitImpl" Private (RPlain "bool") true;
    mkDecl "initHandlerHelper" Private (RPlain "void") true;
    mkDecl "handlerReady" Private (RPlain "void") true;
    mkDecl "send" Private (RExpected "size_t") true;
    mkDecl "recvAsync" Private (RExpected "Message") true;
    mkDecl "recv" Private (RExpected "Message") true;
    mkDecl "applyKeyPair" Private (RExpected "folly::Unit") true;
    mkDecl "setCurveServerSocketKey" Private (RPlain "void") true ].

Definition ServerSocketImpl_decls : list Declaration :=
  [ mkDecl "bind" Public (RExpected "folly::Unit") true;
    mkDecl "unbind" Public (RExpected "folly::Unit") true ].

Definition ClientSocketImpl_decls : list Declaration :=
  [ mkDecl "connect" Public (RExpected "folly::Unit") true;
    mkDecl "disconnect" Public (RExpected "folly::Unit") true;
    mkDecl "addServerKey" Public (RExpected "folly::Unit") true;
    mkDecl "delServerKey" Public (RExpected "folly::Unit") true ].

Definition all_decls : list Declaration :=
  SocketImpl_decls ++ ServerSocketImpl_decls ++ ClientSocketImpl_decls.

Definition declared (name : string) : list Declaration :=
  filter (fun d => String.eqb (declName d) name) all_decls.

Definition isExpected (t : ReturnType) : bool :=
  match t with RExpected _ => true | RPlain _ => false end.

(** Every declaration of the list is [noexcept] and returns an [Expected],
    and there is one. *)
Definition well_formed (ds : list Declaration) : bool :=
  negb (match ds with [] => true | _ => false end) &&
  forallb (fun d => declNoexcept d && isExpected (declReturn d)) ds.

Definition all_well_formed (names : list string) : bool :=
  forallb (fun name => well_formed (declared name)) names.

(** How a call of a declared function can end, seen from the caller.  An
    exception that leaves a [noexcept] function ends in [std::terminate]:
    the caller never sees it. *)
Inductive Outcome (A : Type) : Type :=
| Returns (a : A)
| Throws
| Terminates.
Arguments Returns {A} a.
Arguments Throws {A}.
Arguments Terminates {A}.

Definition invoke {A} (d : Declaration) (body : Outcome A) : Outcome A :=
  if declNoexcept d
  then match body with Throws => Terminates | o => o end
  else body.

(** The fallible send/recv/option operations. *)
Definition fallible_operations : list string :=
  [ "setSockOpt"; "getSockOpt"; "setKeepAlive"; "recvOne"; "sendOne";
    "sendMore"; "bind"; "unbind"; "connect"; "disconnect"; "addServerKey";
    "delServerKey" ]%string.

(** The special member functions of [SocketImpl] (Socket.h 97-109). *)
Inductive SpecialMember : Type :=
| CopyConstructor | CopyAssignment | MoveConstructor | MoveAssignment
| Destructor.

Inductive SpecialDecl : Type :=
| Deleted
| UserDeclared (isNoexcept : bool).

Definition SocketImpl_special (m : SpecialMember) : SpecialDecl :=
  match m with
  | CopyConstructor => Deleted
  | CopyAssignment => Deleted
  | MoveConstructor => UserDeclared true
  | MoveAssignment => UserDeclared true
  | Destructor => UserDeclared true
  end.

Definition copyable : bool :=
  match SocketImpl_special CopyConstructor, SocketImpl_special CopyAssignment
  with
  | Deleted, Deleted => false
  | _, _ => true
  end.

(** ** The out-of-line part, after the specification

    The bodies of the constructors, the move operations, [recvOne],
    [hasMore], [sendOne], [sendMore] and the dynamic [recvMultiple] are in
    Socket.cpp. *)

(** Modelled from the spec: the constructors of [SocketImpl] (Socket.cpp).
    "Takes a socket-type tag, a boolean is-server role flag, a context (or
    raw context handle), and configuration: optional identity, optional
    encryption key pair, a non-blocking flag, and an optional event-loop
    handle"; an event loop with a blocking socket is a configuration error
    (no object); the context-less socket is "initialized with nullptr".
    [handle] is the raw socket the library hands out. *)
Definition SocketImpl_ctor (handle : Z) (i : BaseInit) : option SocketImpl :=
  let make ctxPtr keyPair isNonblocking evb :=
    if negb (evb =? nullptr) && negb (nonblocking isNonblocking) then None
    else Some {| baseFlags_ := if nonblocking isNonblocking
                               then ZMQ_DONTWAIT else 0;
                 isSendingMore_ := false;
                 ptr_ := handle;
                 ctxPtr_ := ctxPtr;
                 keyPair_ := keyPair;
                 serverKeys_ := [];
                 evb_ := evb;
                 waitEvents_ := 0;
                 fiberReadBaton_ := BatonIdle;
                 fiberWriteBaton_ := BatonIdle |} in
  match initArgs i with
  | WithContext ctx _ keyPair isNonblocking evb =>
      make ctx keyPair isNonblocking evb
  | WithContextPtr ctxPtr _ keyPair isNonblocking evb =>
      make ctxPtr keyPair isNonblocking evb
  | ContextLess =>
      Some {| baseFlags_ := 0; isSendingMore_ := false; ptr_ := nullptr;
              ctxPtr_ := nullptr; keyPair_ := None; serverKeys_ := [];
              evb_ := nullptr; waitEvents_ := 0;
              fiberReadBaton_ := BatonIdle; fiberWriteBaton_ := BatonIdle |}
  end.

(** What the caller supplied to a constructor. *)
Definition suppliedKeyPair (i : BaseInit) : option KeyPair :=
  match initArgs i with
  | WithContext _ _ keyPair _ _ => keyPair
  | WithContextPtr _ _ keyPair _ _ => keyPair
  | ContextLess => None
  end.

Definition suppliedNonblocking (i : BaseInit) : bool :=
  match initArgs i with
  | WithContext _ _ _ isNonblocking _ => nonblocking isNonblocking
  | WithContextPtr _ _ _ isNonblocking _ => nonblocking isNonblocking
  | ContextLess => false
  end.

(** Modelled from the spec: the move constructor and move assignment of
    [SocketImpl] (Socket.cpp).  "moved (ownership transfers, source becomes
    null)"; "moving a live socket must transfer its handle, its registered
    event-loop interest, and any pending waiter state".  The pair is the
    destination and the moved-from source. *)
Definition SocketImpl_move (other : SocketImpl) : SocketImpl * SocketImpl :=
  (other,
   {| baseFlags_ := baseFlags_ other;
      isSendingMore_ := isSendingMore_ other;
      ptr_ := nullptr;
      ctxPtr_ := ctxPtr_ other;
      keyPair_ := keyPair_ other;
      serverKeys_ := serverKeys_ other;
      evb_ := evb_ other;
      waitEvents_ := 0;
      fiberReadBaton_ := BatonIdle;
      fiberWriteBaton_ := BatonIdle |}).

(** Move assignment replaces whatever the destination held. *)
Definition SocketImpl_move_assign (this other : SocketImpl)
  : SocketImpl * SocketImpl :=
  SocketImpl_move other.

(** A socket is live while it holds a handle; a null one is inert. *)
Definition live (s : SocketImpl) : bool := negb (ptr_ s =? nullptr).

(** Modelled from the spec: the transport between a socket and its peer,
    and the bodies of [recvOne], [hasMore], [sendOne] and [sendMore]
    (Socket.cpp) over it.  A frame travels with its continuation flag;
    "frames within one multi-part logical message are delivered/sent in
    issue order"; [sendOne] "ships a final frame", [sendMore] "ships a frame
    with more set, leaving isSendingMore_ true"; [hasMore] "reports whether
    the last-received frame was marked as continuing"; "on timeout with no
    message, returns a timeout error" ([EAGAIN]); a receive without timeout
    waits, and a wait on a queue that stays empty can only end interrupted
    ([EINTR]); sends return the bytes shipped. *)
Definition Frame : Type := (Message * bool)%type.

Record Endpoint : Type := mkEndpoint {
  inbox : list Frame;
  rcvMore : bool;
  sendingMore : bool
}.

Record Net : Type := mkNet { localEnd : Endpoint; peerEnd : Endpoint }.

Inductive End : Type := Local | Peer.

Definition endOf (e : End) (n : Net) : Endpoint :=
  match e with Local => localEnd n | Peer => peerEnd n end.

Definition otherEnd (e : End) : End :=
  match e with Local => Peer | Peer => Local end.

Definition setEnd (e : End) (ep : Endpoint) (n : Net) : Net :=
  match e with
  | Local => mkNet ep (peerEnd n)
  | Peer => mkNet (localEnd n) ep
  end.

Definition msgSize (m : Message) : size_t := Z.of_nat (length m).

(** Socket [e] ships frame [f]: it joins the far end's queue. *)
Definition ship (e : End) (f : Frame) (n : Net) : Net :=
  let me := endOf e n in
  let n1 := setEnd e (mkEndpoint (inbox me) (rcvMore me) (snd f)) n in
  let far := endOf (otherEnd e) n1 in
  setEnd (otherEnd e)
         (mkEndpoint (inbox far ++ [f]) (rcvMore far) (sendingMore far)) n1.

Definition wire (e : End) : Impl Net :=
  fun R c =>
    match c in SocketCall R0 return Net -> R0 * Net with
    | recvOneC timeout => fun n =>
        let me := endOf e n in
        match inbox me with
        | [] =>
            (Unexpected (mkError match timeout with
                                 | Some _ => EAGAIN
                                 | None => EINTR
                                 end), n)
        | (m, more) :: q =>
            (Value m, setEnd e (mkEndpoint q more (sendingMore me)) n)
        end
    | hasMoreC => fun n => (rcvMore (endOf e n), n)
    | sendOneC m => fun n => (Value (msgSize m), ship e (m, false) n)
    | sendMoreC m => fun n => (Value (msgSize m), ship e (m, true) n)
    | bindC _ => fun n => (Value tt, n)
    | unbindC _ => fun n => (Value tt, n)
    | connectC _ => fun n => (Value tt, n)
    | disconnectC _ => fun n => (Value tt, n)
    | addServerKeyC _ _ => fun n => (Value tt, n)
    | delServerKeyC _ => fun n => (Value tt, n)
    end.

(** Modelled from the spec: the dynamic [recvMultiple] (Socket.cpp).
    "receives the first frame respecting the timeout; if it fails, returns
    that error immediately; otherwise keeps receiving following frames (no
    timeout) until the socket signals no more data, accumulating into a
    sequence; subsequent-frame errors are not explicitly distinguished from
    protocol completion".  The loop runs on [fuel]; [None] is "out of
    fuel". *)
Fixpoint recvFollowing (fuel : nat) (msgs : list Message)
  : Prog (option (list Message)) :=
  match fuel with
  | O => Ret None
  | S fuel' =>
      more <- hasMore ;;
      if more then
        tmp <- recvOne None ;;
        match tmp with
        | Unexpected _ => Ret (Some msgs)
        | Value m => recvFollowing fuel' (msgs ++ [m])
        end
      else Ret (Some msgs)
  end.

Definition recvMultipleDynamic (fuel : nat) (timeout : option milliseconds)
  : Prog (option (Expected (list Message) Error)) :=
  first <- recvOne timeout ;;
  match first with
  | Unexpected e => Ret (Some (Unexpected e))
  | Value m =>
      r <- recvFollowing fuel [m] ;;
      Ret (option_map (fun msgs => Value msgs) r)
  end.

(** A series of [sendMore] calls closed by one [sendOne], results ignored. *)
Fixpoint sendSeries (msg : Message) (msgs : list Message) : Prog unit :=
  match msgs with
  | [] => _ <- sendOne msg ;; Ret tt
  | next :: rest => _ <- sendMore msg ;; sendSeries next rest
  end.

(** Sample data: a frame from its text, a quiet network, and a network
    whose local socket holds the given frames. *)
Definition frame (text : string) : Message := list_byte_of_string text.

Definition quiet : Net :=
  mkNet (mkEndpoint [] false false) (mkEndpoint [] false false).

Definition holding (fs : list Frame) : Net :=
  mkNet (mkEndpoint fs false false) (mkEndpoint [] false false).

(** ** Vocabulary of the statements *)

(** The frames of one multi-part message on the wire: all but the last
    carry the continuation flag. *)
Fixpoint tagged (msg : Message) (msgs : list Message) : list Frame :=
  match msgs with
  | [] => [(msg, false)]
  | next :: rest => (msg, true) :: tagged next rest
  end.

(** Under implementation [h], from state [s] the socket hands out the
    frames [fs], one per [recvOne] whatever its timeout, each followed by a
    [hasMore] that reports the frame's flag, and reaches [s']. *)
Fixpoint delivers {S} (h : Impl S) (s : S) (fs : list Frame) (s' : S) : Prop :=
  match fs with
  | [] => s = s'
  | (m, more) :: q =>
      exists s1 s2,
        (forall t, h _ (recvOneC t) s = (Value m, s1)) /\
        h _ hasMoreC s1 = (more, s2) /\
        delivers h s2 q s'
  end.

(** The timeouts of the receives of a log, in order. *)
Fixpoint recvTimeouts (tr : list Event) : list (option milliseconds) :=
  match tr with
  | [] => []
  | EvRecvOne t _ :: tr' => t :: recvTimeouts tr'
  | _ :: tr' => recvTimeouts tr'
  end.

(** The answers of [hasMore] of a log, in order. *)
Fixpoint hasMoreAnswers (tr : list Event) : list bool :=
  match tr with
  | [] => []
  | EvHasMore b :: tr' => b :: hasMoreAnswers tr'
  | _ :: tr' => hasMoreAnswers tr'
  end.

(** The log of a message [fs] read frame by frame; the first receive is
    made with timeout [t], the others with none. *)
Fixpoint recvLog (t : option milliseconds) (fs : list Frame) : list Event :=
  match fs with
  | [] => []
  | (m, more) :: q => EvRecvOne t (Value m) :: EvHasMore more :: recvLog None q
  end.

(** The byte counts [n, ns...] added up the way the code does, in
    [size_t]: [n1 + (n2 + (... + nN))]. *)
Fixpoint size_total (n : size_t) (ns : list size_t) : size_t :=
  match ns with
  | [] => n
  | n' :: rest => size_add n (size_total n' rest)
  end.

(** Their sum as integers. *)
Definition sum (ns : list Z) : Z := fold_right Z.add 0 ns.

(** Frames that went out, each with the byte count its send returned. *)
Definition okSends (fs : list Frame) (ns : list size_t)
  : list (Message * bool * Expected size_t Error) :=
  map (fun x => (fst (fst x), snd (fst x), Value (snd x))) (combine fs ns).

(** The sends of a log: the frame, whether it went out with the "more" flag,
    and what the send returned. *)
Fixpoint sends (tr : list Event)
  : list (Message * bool * Expected size_t Error) :=
  match tr with
  | [] => []
  | EvSendOne m r :: tr' => (m, false, r) :: sends tr'
  | EvSendMore m r :: tr' => (m, true, r) :: sends tr'
  | _ :: tr' => sends tr'
  end.

(** The frames the receives of a log brought in, in order. *)
Fixpoint received (tr : list Event) : list Message :=
  match tr with
  | [] => []
  | EvRecvOne _ (Value m) :: tr' => m :: received tr'
  | _ :: tr' => received tr'
  end.

(** A log that holds calls of [recvOne] and [hasMore] only. *)
Definition receivesOnly (tr : list Event) : bool :=
  forallb (fun ev => match ev with
                     | EvRecvOne _ _ | EvHasMore _ => true
                     | _ => false
                     end) tr.

(** The timeout of the receive that follows the frames [pre] in a static
    receive called with [t]: [t] for the first frame, none afterwards. *)
Definition nextTimeout (t : option milliseconds) (pre : list Frame)
  : option milliseconds :=
  match pre with [] => t | _ :: _ => None end.

(** Frames that all carry the continuation flag. *)
Definition allMore (msg : Message) (msgs : list Message) : list Frame :=
  map (fun m => (m, true)) (msg :: msgs).

(** A caller that ships a message in two calls: a [sendMultipleMore] for the
    leading frames, then, if that succeeded, a [sendMultiple] for the rest,
    adding up the two byte counts. *)
Definition sendInTwo (hasMore : bool) (msg : Message) (msgs : list Message)
    (msg' : Message) (msgs' : list Message) : Prog (Expected size_t Error) :=
  first <- sendMultipleMore msg msgs ;;
  match first with
  | Unexpected e => Ret (Unexpected e)
  | Value n =>
      second <- sendMultiple hasMore msg' msgs' ;;
      match second with
      | Unexpected e => Ret (Unexpected e)
      | Value n' => Ret (Value (size_add n n'))
      end
  end.

(** The multi-frame operations of the header. *)
Definition multiframe_operations : list string :=
  [ "recvMultipleTimeout"; "recvMultiple"; "drain"; "sendMultiple";
    "sendMultipleMore" ]%string.

(** A declaration that returns an [Expected] lacks [noexcept] exactly when
    it is one of [names]. *)
Definition throwing_exactly (names : list string) (d : Declaration) : bool :=
  implb (isExpected (declReturn d))
        (Bool.eqb (negb (declNoexcept d))
                  (existsb (String.eqb (declName d)) names)).

(** * Properties *)

(** ** Running programs *)

Lemma run_pbind :
  forall A B S (h : Impl S) (p : Prog A) (f : A -> Prog B) (s : S),
    run h (pbind p f) s =
    let o := run h p s in
    let o' := run h (f (result o)) (final o) in
    mkRun (result o') (final o') (trace o ++ trace o').
Proof.
  intros A B S h p f. induction p as [a | R c k IH]; intros s; simpl.
  - destruct (run h (f a) s); reflexivity.
  - destruct (h R c s) as [r s1]. rewrite IH. reflexivity.
Qed.

Lemma run_call :
  forall R S (h : Impl S) (c : SocketCall R) (s : S),
    run h (call c) s =
    mkRun (fst (h _ c s)) (snd (h _ c s)) [event_of c (fst (h _ c s))].
Proof.
  intros. unfold call. simpl. destruct (h R c s); reflexivity.
Qed.

Lemma tagged_length :
  forall msgs msg, length (tagged msg msgs) = S (length msgs).
Proof.
  induction msgs as [| next rest IH]; intros msg; simpl.
  - reflexivity.
  - rewrite IH. reflexivity.
Qed.

Lemma tagged_frames :
  forall msgs msg, map fst (tagged msg msgs) = msg :: msgs.
Proof.
  induction msgs as [| next rest IH]; intros msg; simpl.
  - reflexivity.
  - rewrite IH. reflexivity.
Qed.

(** ** The static receive against a socket that holds a message *)

Section StaticReceive.
Variable S : Type.
Variable h : Impl S.

(** The whole behaviour of the static receive when the socket holds the
    message [f :: fs]: the return value, the slots, the calls made and
    what is left on the socket. *)
Lemma run_recvMultipleTimeout :
  forall slots t slot f fs s s',
    delivers h s (tagged f fs) s' ->
    let o := run h (recvMultipleTimeout t slot slots) s in
    result o =
      (if Nat.eqb (length fs) (length slots)
       then Value tt else Unexpected (mkError EPROTO),
       firstn (Datatypes.S (length slots)) (f :: fs)
         ++ skipn (Datatypes.S (length fs)) (slot :: slots)) /\
    trace o = recvLog t (firstn (Datatypes.S (length slots)) (tagged f fs)) /\
    delivers h (final o)
      (skipn (Datatypes.S (length slots)) (tagged f fs)) s'.
Proof.
  induction slots as [| next rest IH]; intros t slot f fs s s' D.
  - destruct fs as [| g gs]; simpl in D;
      destruct D as (s1 & s2 & Hr & Hm & D);
      simpl; rewrite (Hr t); simpl; rewrite Hm; simpl.
    + subst s'. auto.
    + repeat split; auto.
  - destruct fs as [| g gs]; simpl in D;
      destruct D as (s1 & s2 & Hr & Hm & D).
    + simpl. rewrite (Hr t). simpl. rewrite Hm. simpl. subst s'. auto.
    + specialize (IH None next g gs s2 s' D).
      cbv zeta in IH. destruct IH as (IHr & IHt & IHd).
      cbn [recvMultipleTimeout]. unfold recvOne, hasMore, call.
      cbn [pbind run]. rewrite (Hr t). cbn [pbind run]. rewrite Hm.
      cbn [negb]. rewrite run_pbind. cbn [result final trace run].
      rewrite IHr, IHt. cbn [fst snd length]. repeat split.
      * rewrite app_nil_r. reflexivity.
      * exact IHd.
Qed.
End StaticReceive.

(** C1.  When the socket holds a multi-part message [f :: fs] whose number
    of frames differs from the number of slots of a static receive
    ([recvMultipleTimeout], and [recvMultiple] which is the same call
    without timeout), the call returns the protocol-violation error
    [EPROTO]; the slots then hold the frames received so far, in order,
    followed by the untouched contents of the slots that were not reached:
    with fewer frames than slots all frames are in the leading slots, with
    more frames than slots the slots hold the first frames. *)
Theorem static_receive_arity_mismatch :
  forall S (h : Impl S) (s s' : S) t slot slots f fs,
    delivers h s (tagged f fs) s' ->
    length fs <> length slots ->
    let o := run h (recvMultipleTimeout t slot slots) s in
    fst (result o) = Unexpected (mkError EPROTO) /\
    snd (result o) =
      firstn (Datatypes.S (length slots)) (f :: fs)
        ++ skipn (Datatypes.S (length fs)) (slot :: slots) /\
    recvMultiple slot slots = recvMultipleTimeout None slot slots.
Proof.
  intros S h s s' t slot slots f fs D Hne o.
  destruct (@run_recvMultipleTimeout S h slots t slot f fs s s' D)
    as (Hr & _ & _).
  fold o in Hr. rewrite Hr. cbn [fst snd].
  apply Nat.eqb_neq in Hne. rewrite Hne. auto.
Qed.

Lemma static_receive_arity_mismatch_witness :
  delivers (wire Local)
    (holding [(frame "a", true); (frame "b", false)])
    (tagged (frame "a") [frame "b"])
    (mkNet (mkEndpoint [] false false) (mkEndpoint [] false false)) /\
  length [frame "b"] <> length [frame "y"; frame "z"] /\
  let o := run (wire Local)
             (recvMultipleTimeout (Some 100) (frame "x")
                [frame "y"; frame "z"])
             (holding [(frame "a", true); (frame "b", false)]) in
  fst (result o) = Unexpected (mkError EPROTO) /\
  snd (result o) = [frame "a"; frame "b"; frame "z"].
Proof.
  assert (D : delivers (wire Local)
                (holding [(frame "a", true); (frame "b", false)])
                (tagged (frame "a") [frame "b"])
                (mkNet (mkEndpoint [] false false)
                       (mkEndpoint [] false false))).
  { simpl. do 2 eexists. split; [intros t; reflexivity |].
    split; [reflexivity |]. do 2 eexists.
    split; [intros t; reflexivity |]. split; reflexivity. }
  assert (N : length [frame "b"] <> length [frame "y"; frame "z"])
    by (simpl; lia).
  split; [exact D |]. split; [exact N |].
  destruct (@static_receive_arity_mismatch Net (wire Local) _ _ (Some 100)
              (frame "x") [frame "y"; frame "z"] (frame "a") [frame "b"]
              D N) as (H1 & H2 & _).
  split; [exact H1 | exact H2].
Defined.

(** ** Which receives carry the timeout *)

Section Timeouts.
Variable S : Type.
Variable h : Impl S.

Lemma recvTimeouts_static :
  forall slots t slot s,
    exists k,
      (k <= length slots)%nat /\
      recvTimeouts (trace (run h (recvMultipleTimeout t slot slots) s)) =
      t :: repeat None k.
Proof.
  induction slots as [| next rest IH]; intros t slot s.
  - exists 0%nat. split; [reflexivity |]. simpl.
    destruct (h (recvOneC t) s) as [[v | e] s1]; simpl.
    + destruct (h hasMoreC s1) as [[|] s2]; reflexivity.
    + reflexivity.
  - cbn [recvMultipleTimeout]. unfold recvOne, hasMore, call.
    cbn [pbind run].
    destruct (h (recvOneC t) s) as [[v | e] s1]; cbn [pbind run].
    + destruct (h hasMoreC s1) as [[|] s2]; cbn [negb].
      * destruct (IH None next s2) as (k & Hk & Hrec).
        exists (Datatypes.S k). split; [simpl; lia |].
        rewrite run_pbind. cbn [result final trace run recvTimeouts event_of].
        rewrite app_nil_r. fold (recvOne None) in *.
        unfold recvOne, hasMore, call in Hrec. rewrite Hrec. reflexivity.
      * exists 0%nat. split; [simpl; lia | reflexivity].
    + exists 0%nat. split; [simpl; lia | reflexivity].
Qed.

Variable e : Error.
Hypothesis e_not_protocol : e <> mkError EPROTO.
Hypothesis untimed_never_e :
  forall s, fst (h (recvOneC None) s) <> Unexpected e.

Lemma untimed_static_never_e :
  forall slots slot s,
    fst (result (run h (recvMultipleTimeout None slot slots) s)) <>
    Unexpected e.
Proof.
  induction slots as [| next rest IH]; intros slot s;
    cbn [recvMultipleTimeout]; unfold recvOne, hasMore, call;
    cbn [pbind run]; pose proof (untimed_never_e s) as Hs;
    destruct (h (recvOneC None) s) as [[v | e'] s1]; cbn [pbind run].
  - destruct (h hasMoreC s1) as [[|] s2]; cbn; congruence.
  - cbn in *. congruence.
  - destruct (h hasMoreC s1) as [[|] s2]; cbn [negb].
    + rewrite run_pbind. cbn [result final trace run fst].
      apply IH.
    + cbn. congruence.
  - cbn in *. congruence.
Qed.

Lemma error_e_from_first_receive :
  forall slots t slot s,
    let o := run h (recvMultipleTimeout t slot slots) s in
    fst (result o) = Unexpected e ->
    trace o = [EvRecvOne t (Unexpected e)].
Proof.
  intros slots t slot s. destruct slots as [| next rest];
    cbn [recvMultipleTimeout]; unfold recvOne, hasMore, call;
    cbn [pbind run];
    destruct (h (recvOneC t) s) as [[v | e'] s1]; cbn [pbind run].
  - destruct (h hasMoreC s1) as [[|] s2]; cbn; congruence.
  - cbn. congruence.
  - destruct (h hasMoreC s1) as [[|] s2]; cbn [negb].
    + rewrite run_pbind. cbn [result final trace run fst]. intros H.
      exfalso. exact (untimed_static_never_e rest next s2 H).
    + cbn. congruence.
  - cbn. congruence.
Qed.
End Timeouts.

Lemma recvTimeouts_recvLog :
  forall fs t,
    recvTimeouts (recvLog t fs) =
    match fs with [] => [] | _ :: q => t :: repeat None (length q) end.
Proof.
  induction fs as [| [m more] q IH]; intros t; simpl.
  - reflexivity.
  - rewrite IH. destruct q; reflexivity.
Qed.

Lemma recvTimeouts_static_delivered :
  forall S (h : Impl S) (s s' : S) t slot slots f fs,
    delivers h s (tagged f fs) s' ->
    let o := run h (recvMultipleTimeout t slot slots) s in
    trace o = recvLog t (firstn (Datatypes.S (length slots)) (tagged f fs)) /\
    recvTimeouts (trace o) =
      t :: repeat None (Nat.min (length slots) (length fs)).
Proof.
  intros S h s s' t slot slots f fs D o.
  destruct (@run_recvMultipleTimeout S h slots t slot f fs s s' D)
    as (_ & Ht & _).
  fold o in Ht. split; [exact Ht |].
  rewrite Ht, recvTimeouts_recvLog.
  destruct fs as [| g gs].
  - cbn [tagged firstn length]. rewrite firstn_nil, Nat.min_0_r. reflexivity.
  - cbn [tagged firstn]. rewrite length_firstn, tagged_length. reflexivity.
Qed.

(** C2.  In a static receive called with timeout [T], whatever the socket
    does, the first [recvOne] is the only one that is passed [T]: every
    later [recvOne] of the call is made with no timeout (an indefinite
    wait), and there is at most one per remaining slot.  When the socket
    holds a message, the call does receive its later frames, one per
    remaining slot as far as the message goes, and each of those receives
    is made with no timeout.  Hence an error that a receive without
    timeout never produces (as the timeout error), and that is not the
    protocol error, can only come back from the call as the answer of the
    first receive, which is then the only call made. *)
Theorem timeout_applies_to_first_frame_only :
  forall S (h : Impl S) (s : S) (T : milliseconds) slot slots,
    let o := run h (recvMultipleTimeout (Some T) slot slots) s in
    (exists k, (k <= length slots)%nat /\
               recvTimeouts (trace o) = Some T :: repeat None k) /\
    (forall s' f fs,
        delivers h s (tagged f fs) s' ->
        trace o =
          recvLog (Some T)
            (firstn (Datatypes.S (length slots)) (tagged f fs)) /\
        recvTimeouts (trace o) =
          Some T :: repeat None (Nat.min (length slots) (length fs))) /\
    (forall e,
        e <> mkError EPROTO ->
        (forall s0, fst (h _ (recvOneC None) s0) <> Unexpected e) ->
        fst (result o) = Unexpected e ->
        trace o = [EvRecvOne (Some T) (Unexpected e)]).
Proof.
  intros S h s T slot slots o. split; [| split].
  - apply recvTimeouts_static.
  - intros s' f fs D.
    exact (@recvTimeouts_static_delivered S h s s' (Some T) slot slots f fs D).
  - intros e He Hu Hr.
    exact (@error_e_from_first_receive S h e He Hu slots (Some T) slot s Hr).
Qed.

Lemma length_recvTimeouts_recvLog :
  forall fs t, length (recvTimeouts (recvLog t fs)) = length fs.
Proof.
  induction fs as [| [m more] q IH]; intros t; simpl.
  - reflexivity.
  - rewrite IH. reflexivity.
Qed.

Lemma last_skip_head :
  forall A (l : list A) (a d : A), l <> [] -> last (a :: l) d = last l d.
Proof.
  intros A l a d Hne. destruct l as [| b l]; [congruence | reflexivity].
Qed.

Lemma last_recvLog_surplus :
  forall n t f fs,
    (n < length fs)%nat ->
    last (recvLog t (firstn (Datatypes.S n) (tagged f fs))) (EvHasMore false)
    = EvHasMore true.
Proof.
  induction n as [| n IH]; intros t f fs Hlt.
  - destruct fs as [| g gs]; [simpl in Hlt; lia | reflexivity].
  - destruct fs as [| g gs]; [simpl in Hlt; lia |].
    simpl in Hlt. assert (Hn : (n < length gs)%nat) by lia.
    specialize (IH None g gs Hn).
    change (tagged f (g :: gs)) with ((f, true) :: tagged g gs).
    rewrite firstn_cons. cbn [recvLog].
    assert (Hne : recvLog None (firstn (Datatypes.S n) (tagged g gs)) <> [])
      by (destruct gs; discriminate).
    rewrite !last_skip_head by (exact Hne || discriminate).
    exact IH.
Qed.

(** C10.  When the socket holds more frames than the static receive has
    slots, the call ends with [EPROTO] right after the [hasMore] that
    follows the last slot: it has made exactly one [recvOne] per slot and
    none after, and the frames beyond the slots are still on the socket,
    ready for later receives. *)
Theorem surplus_frames_left_unread :
  forall S (h : Impl S) (s s' : S) t slot slots f fs,
    delivers h s (tagged f fs) s' ->
    (length slots < length fs)%nat ->
    let o := run h (recvMultipleTimeout t slot slots) s in
    let N := Datatypes.S (length slots) in
    fst (result o) = Unexpected (mkError EPROTO) /\
    trace o = recvLog t (firstn N (tagged f fs)) /\
    length (recvTimeouts (trace o)) = N /\
    last (trace o) (EvHasMore false) = EvHasMore true /\
    delivers h (final o) (skipn N (tagged f fs)) s' /\
    map fst (skipn N (tagged f fs)) = skipn N (f :: fs) /\
    skipn N (f :: fs) <> [].
Proof.
  intros S h s s' t slot slots f fs D Hlt o N.
  destruct (@run_recvMultipleTimeout S h slots t slot f fs s s' D)
    as (Hr & Ht & Hd).
  fold o in Hr, Ht, Hd. fold N in Hr, Ht, Hd.
  assert (Hneq : Nat.eqb (length fs) (length slots) = false)
    by (apply Nat.eqb_neq; lia).
  split; [rewrite Hr, Hneq; reflexivity |].
  split; [exact Ht |].
  split.
  { rewrite Ht, length_recvTimeouts_recvLog, length_firstn, tagged_length.
    unfold N. lia. }
  split; [rewrite Ht; apply last_recvLog_surplus; exact Hlt |].
  split; [exact Hd |].
  split.
  - rewrite <- (tagged_frames fs f). symmetry. apply skipn_map.
  - intros H. apply (f_equal (@length Message)) in H.
    rewrite length_skipn in H. simpl in H. unfold N in H. lia.
Qed.

Lemma timeout_applies_to_first_frame_only_witness :
  mkError EAGAIN <> mkError EPROTO /\
  (forall s0, fst (wire Local (recvOneC None) s0) <>
              Unexpected (mkError EAGAIN)) /\
  delivers (wire Local)
    (holding [(frame "a", true); (frame "b", true); (frame "c", false)])
    (tagged (frame "a") [frame "b"; frame "c"]) quiet /\
  (let o := run (wire Local)
              (recvMultipleTimeout (Some 100) (frame "x") [frame "y"]) quiet in
   fst (result o) = Unexpected (mkError EAGAIN) /\
   trace o = [EvRecvOne (Some 100) (Unexpected (mkError EAGAIN))] /\
   (exists k, (k <= 1)%nat /\
              recvTimeouts (trace o) = Some 100 :: repeat None k)) /\
  (let o := run (wire Local)
              (recvMultipleTimeout (Some 100) (frame "x")
                 [frame "y"; frame "z"])
              (holding [(frame "a", true); (frame "b", true);
                        (frame "c", false)]) in
   trace o = [EvRecvOne (Some 100) (Value (frame "a")); EvHasMore true;
              EvRecvOne None (Value (frame "b")); EvHasMore true;
              EvRecvOne None (Value (frame "c")); EvHasMore false] /\
   recvTimeouts (trace o) = [Some 100; None; None]).
Proof.
  assert (He : mkError EAGAIN <> mkError EPROTO) by discriminate.
  assert (Hu : forall s0, fst (wire Local (recvOneC None) s0) <>
                          Unexpected (mkError EAGAIN)).
  { intros s0. simpl. destruct (inbox (localEnd s0)) as [| [m more] q];
      simpl; discriminate. }
  assert (D : delivers (wire Local)
                (holding [(frame "a", true); (frame "b", true);
                          (frame "c", false)])
                (tagged (frame "a") [frame "b"; frame "c"]) quiet).
  { simpl. do 2 eexists. split; [intros t; reflexivity |].
    split; [reflexivity |]. do 2 eexists.
    split; [intros t; reflexivity |]. split; [reflexivity |].
    do 2 eexists. split; [intros t; reflexivity |]. split; reflexivity. }
  split; [exact He |]. split; [exact Hu |]. split; [exact D |]. split.
  - destruct (@timeout_applies_to_first_frame_only Net (wire Local) quiet 100
                (frame "x") [frame "y"]) as (Hk & _ & Ht).
    split; [reflexivity |].
    split; [exact (Ht (mkError EAGAIN) He Hu eq_refl) | exact Hk].
  - destruct (@timeout_applies_to_first_frame_only Net (wire Local)
                (holding [(frame "a", true); (frame "b", true);
                          (frame "c", false)]) 100
                (frame "x") [frame "y"; frame "z"]) as (_ & Hd & _).
    exact (Hd quiet (frame "a") [frame "b"; frame "c"] D).
Defined.

Lemma surplus_frames_left_unread_witness :
  delivers (wire Local)
    (holding [(frame "a", true); (frame "b", true); (frame "c", false)])
    (tagged (frame "a") [frame "b"; frame "c"]) quiet /\
  (length [frame "y"] < length [frame "b"; frame "c"])%nat /\
  let o := run (wire Local)
             (recvMultipleTimeout (Some 100) (frame "x") [frame "y"])
             (holding [(frame "a", true); (frame "b", true);
                       (frame "c", false)]) in
  fst (result o) = Unexpected (mkError EPROTO) /\
  trace o = [EvRecvOne (Some 100) (Value (frame "a")); EvHasMore true;
             EvRecvOne None (Value (frame "b")); EvHasMore true] /\
  delivers (wire Local) (final o) [(frame "c", false)] quiet.
Proof.
  assert (D : delivers (wire Local)
                (holding [(frame "a", true); (frame "b", true);
                          (frame "c", false)])
                (tagged (frame "a") [frame "b"; frame "c"]) quiet).
  { simpl. do 2 eexists. split; [intros t; reflexivity |].
    split; [reflexivity |]. do 2 eexists.
    split; [intros t; reflexivity |]. split; [reflexivity |].
    do 2 eexists. split; [intros t; reflexivity |]. split; reflexivity. }
  assert (L : (length [frame "y"] < length [frame "b"; frame "c"])%nat)
    by (simpl; lia).
  split; [exact D |]. split; [exact L |].
  destruct (@surplus_frames_left_unread Net (wire Local) _ _ (Some 100)
              (frame "x") [frame "y"] (frame "a") [frame "b"; frame "c"]
              D L) as (H1 & H2 & _ & _ & H5 & _).
  split; [exact H1 |]. split; [exact H2 | exact H5].
Defined.

(** ** The static send *)

Lemma size_total_exact :
  forall ns n,
    Forall (fun k => 0 <= k) (n :: ns) ->
    sum (n :: ns) < 2 ^ 64 ->
    size_total n ns = sum (n :: ns).
Proof.
  induction ns as [| n' rest IH]; intros n Hpos Hlt.
  - simpl in *. lia.
  - inversion Hpos as [| ? ? Hn Hrest]; subst.
    assert (Hs : 0 <= sum (n' :: rest)).
    { clear - Hrest. induction Hrest; simpl in *; lia. }
    cbn [size_total]. rewrite IH.
    + unfold size_add. change (sum (n :: n' :: rest))
        with (n + sum (n' :: rest)) in *.
      apply Z.mod_small. lia.
    + exact Hrest.
    + change (sum (n :: n' :: rest)) with (n + sum (n' :: rest)) in Hlt. lia.
Qed.

(** C3.  Whatever the sends return, [sendMultiple(m1, ..., mN)] with the
    default [hasMore = false] makes only send calls, and either every frame
    went out, [m1 .. m(N-1)] by [sendMore] and [mN] by [sendOne], in order,
    and the call returns the byte counts of the individual sends added up
    (in [size_t]; their plain sum whenever that fits [size_t]); or some
    send failed, the frames before it went out as above, the failing send
    is the last call made, and its error is returned. *)
Theorem static_send_frames_sum_first_error :
  forall S (h : Impl S) (s : S) msg msgs,
    let o := run h (sendMultiple false msg msgs) s in
    let fs := tagged msg msgs in
    length (sends (trace o)) = length (trace o) /\
    ((exists n ns,
         length (n :: ns) = length fs /\
         sends (trace o) = okSends fs (n :: ns) /\
         result o = Value (size_total n ns) /\
         (Forall (fun k => 0 <= k) (n :: ns) -> sum (n :: ns) < 2 ^ 64 ->
          result o = Value (sum (n :: ns))))
     \/
     (exists ns m more e,
         nth_error fs (length ns) = Some (m, more) /\
         sends (trace o) = okSends fs ns ++ [(m, more, Unexpected e)] /\
         result o = Unexpected e)).
Proof.
  intros S h s msg msgs. revert msg s.
  induction msgs as [| next rest IH]; intros msg s.
  - cbn [sendMultiple tagged]. unfold sendOne. rewrite run_call.
    destruct (h _ (sendOneC msg) s) as [[n | e] s1]; cbn.
    + split; [reflexivity |]. left. exists n, []. cbn.
      repeat split; try reflexivity. intros _ _. f_equal. lia.
    + split; [reflexivity |]. right. exists [], msg, false, e. cbn. auto.
  - cbn [sendMultiple tagged]. unfold sendMore, call. cbn [pbind run].
    destruct (h _ (sendMoreC msg) s) as [[n | e] s1]; cbn [pbind run].
    + rewrite run_pbind. specialize (IH next s1). cbv zeta in IH.
      destruct IH as (Hlen & IH).
      destruct IH as [(n' & ns & Hl & Hs & Hr & _)
                     | (ns & m & more & e & Hn & Hs & Hr)];
        cbv zeta; rewrite Hr;
        cbn [run result final trace event_of sends length];
        rewrite app_nil_r, Hlen; (split; [reflexivity |]).
      * left. exists n, (n' :: ns). rewrite Hs. cbn [length] in *.
        repeat split; try (f_equal; lia); try reflexivity.
        intros Hpos Hlt. f_equal.
        exact (@size_total_exact (n' :: ns) n Hpos Hlt).
      * right. exists (n :: ns), m, more, e. rewrite Hs. cbn. auto.
    + cbn. split; [reflexivity |]. right. exists [], msg, true, e. cbn. auto.
Qed.

Lemma static_send_frames_sum_first_error_witness :
  let o := run (wire Local)
             (sendMultiple false (frame "ab") [frame "c"; frame "def"])
             quiet in
  Forall (fun k => 0 <= k) [2; 1; 3] /\
  sum [2; 1; 3] < 2 ^ 64 /\
  sends (trace o) =
    [(frame "ab", true, Value 2); (frame "c", true, Value 1);
     (frame "def", false, Value 3)] /\
  result o = Value 6.
Proof.
  intros o.
  assert (Hpos : Forall (fun k => 0 <= k) [2; 1; 3])
    by (repeat constructor; lia).
  assert (Hlt : sum [2; 1; 3] < 2 ^ 64) by (cbn; lia).
  split; [exact Hpos |]. split; [exact Hlt |]. split; [reflexivity |].
  destruct (@static_send_frames_sum_first_error Net (wire Local) quiet
              (frame "ab") [frame "c"; frame "def"])
    as (_ & [(n & ns & Hl & Hs & _ & Hx) | (ns & m & more & e & _ & _ & Hr)]).
  - destruct ns as [| n2 [| n3 [| n4 ns]]]; try discriminate Hl.
    cbn in Hs. injection Hs as H1 H2 H3. subst n n2 n3.
    exact (Hx Hpos Hlt).
  - discriminate Hr.
Defined.

(** ** The thrift templates *)

(** C6.  [recvThriftObj] makes one [recvOne]; when that fails it returns
    the receive error as it is, otherwise what decoding the message
    returns (a value or an [Error]).  [sendThriftObj] returns the encoding
    error and makes no call at all when encoding fails; otherwise it is
    exactly [sendOne] on the encoded message. *)
Theorem thrift_objects_propagate_errors :
  forall (ThriftType Serializer : Type)
         (readThriftObj : Message -> Serializer -> Expected ThriftType Error)
         (fromThriftObj : ThriftType -> Serializer -> Expected Message Error)
         S (h : Impl S) (s : S) serializer timeout obj,
    let r := run h (recvThriftObj readThriftObj serializer timeout) s in
    let got := h _ (recvOneC timeout) s in
    let w := run h (sendThriftObj fromThriftObj obj serializer) s in
    trace r = [EvRecvOne timeout (fst got)] /\
    final r = snd got /\
    result r = match fst got with
               | Unexpected e => Unexpected e
               | Value m => readThriftObj m serializer
               end /\
    match fromThriftObj obj serializer with
    | Unexpected e => result w = Unexpected e /\ trace w = [] /\ final w = s
    | Value m =>
        w = run h (sendOne m) s /\ trace w = [EvSendOne m (result w)]
    end.
Proof.
  intros ThriftType Serializer readThriftObj fromThriftObj S h s serializer
         timeout obj r got w.
  subst r got w. unfold recvThriftObj, sendThriftObj, recvOne, sendOne, call.
  cbn [pbind run].
  destruct (h _ (recvOneC timeout) s) as [[m | e] s1]; cbn;
    (repeat split; try reflexivity);
    destruct (fromThriftObj obj serializer) as [m' | e']; cbn;
    try (repeat split; reflexivity);
    destruct (h _ (sendOneC m') s) as [r' s2]; cbn; split; reflexivity.
Qed.

(** ** The role facades *)

(** C4.  Of the six protected role methods, a [Socket<T, ZMQ_SERVER>]
    gives access to [bind] and [unbind] and to no other, a
    [Socket<T, ZMQ_CLIENT>] to [connect], [disconnect], [addServerKey] and
    [delServerKey] and to no other; whatever method a specialisation
    exposes runs, for every implementation and state, exactly as the
    protected [SocketImpl] method of the same name; and the server
    specialisation initialises its base with is-server [true], the client
    specialisation with [false]. *)
Theorem role_facades_are_capability_gates :
  (forall c, Socket_call ZMQ_SERVER c <> None <->
             (exists u, c = DoBind u) \/ (exists u, c = DoUnbind u)) /\
  (forall c, Socket_call ZMQ_CLIENT c <> None <->
             (exists u, c = DoConnect u) \/ (exists u, c = DoDisconnect u) \/
             (exists u k, c = DoAddServerKey u k) \/
             (exists u, c = DoDelServerKey u)) /\
  (forall mode c,
      match Socket_call mode c with
      | Some p =>
          p = SocketImpl_call c /\
          forall S (h : Impl S) (s : S), run h p s = run h (SocketImpl_call c) s
      | None => True
      end) /\
  (forall T args,
      Socket_ctor T ZMQ_SERVER args = Some (mkBaseInit T true args)) /\
  (forall T args,
      Socket_ctor T ZMQ_CLIENT args = Some (mkBaseInit T false args)).
Proof.
  repeat split.
  - destruct c; cbn; intros H; try congruence; eauto.
  - intros [[u H] | [u H]]; subst c; cbn; discriminate.
  - destruct c; cbn; intros H; try congruence; eauto 6.
  - intros [[u H] | [[u H] | [(u & k & H) | [u H]]]]; subst c; cbn;
      discriminate.
  - destruct mode, c; cbn; auto.
Qed.

(** ** Exception specifications *)

Lemma invoke_noexcept_never_throws :
  forall A (d : Declaration) (body : Outcome A),
    declNoexcept d = true -> invoke d body <> Throws.
Proof.
  intros A d body Hd. unfold invoke. rewrite Hd.
  destruct body; discriminate.
Qed.

Lemma well_formed_sound :
  forall ds,
    well_formed ds = true ->
    ds <> [] /\
    forall d, In d ds ->
              declNoexcept d = true /\ isExpected (declReturn d) = true.
Proof.
  intros ds H. unfold well_formed in H.
  apply andb_true_iff in H. destruct H as [Hne Hall]. split.
  - destruct ds; [discriminate | discriminate].
  - intros d Hd. apply andb_true_iff.
    exact (proj1 (forallb_forall _ ds) Hall d Hd).
Qed.

Lemma fallible_operations_well_formed :
  all_well_formed fallible_operations = true.
Proof. vm_compute. reflexivity. Qed.

(** C7.  Each of the fallible send/recv/option operations is declared, and
    every declaration of it ([SocketImpl]'s and the public one of a role
    sub-class) is [noexcept] and returns a [folly::Expected]: whatever its
    body does, a call of it never ends with an exception reaching the
    caller. *)
Theorem fallible_operations_never_throw :
  Forall (fun name =>
            declared name <> [] /\
            Forall (fun d =>
                      declNoexcept d = true /\
                      isExpected (declReturn d) = true /\
                      forall A (body : Outcome A), invoke d body <> Throws)
                   (declared name))
         fallible_operations.
Proof.
  apply Forall_forall. intros name Hin.
  destruct (well_formed_sound (declared name)
              (proj1 (forallb_forall _ fallible_operations)
                     fallible_operations_well_formed name Hin))
    as [Hne Hall].
  split; [exact Hne |].
  apply Forall_forall. intros d Hd. destruct (Hall d Hd) as [Hn He].
  split; [exact Hn |]. split; [exact He |].
  intros A body. apply invoke_noexcept_never_throws. exact Hn.
Qed.

(** ** The queries *)

Lemma land_DONTWAIT_testbit :
  forall flags, negb (Z.land flags ZMQ_DONTWAIT =? 0) = Z.testbit flags 0.
Proof.
  intros flags. unfold ZMQ_DONTWAIT.
  change 1 with (Z.ones 1). rewrite Z.land_ones by lia.
  rewrite Z.bit0_odd. change (2 ^ 1) with 2. rewrite Zmod_odd.
  destruct (Z.odd flags); reflexivity.
Qed.

(** C8.  [isNonBlocking] returns [true] exactly when the [ZMQ_DONTWAIT] bit
    (bit 0) of the base flags is set, [getKeyPair] returns the stored key
    pair, which for a constructed socket is the one supplied to the
    constructor (or none), and both leave the object as it was.  [hasMore]
    leaves the socket and the network as they were, and after a receive it
    reports the continuation flag of the frame that receive took. *)
Theorem query_operations_side_effect_free :
  (forall this,
      isNonBlocking this = (Z.testbit (baseFlags_ this) 0, this)) /\
  (forall this, getKeyPair this = (keyPair_ this, this)) /\
  (forall handle i,
      match SocketImpl_ctor handle i with
      | Some this =>
          fst (getKeyPair this) = suppliedKeyPair i /\
          fst (isNonBlocking this) = suppliedNonblocking i
      | None => True
      end) /\
  (forall e n, snd (wire e hasMoreC n) = n) /\
  (forall e n t,
      match inbox (endOf e n) with
      | (m, more) :: _ =>
          fst (wire e (recvOneC t) n) = Value m /\
          fst (wire e hasMoreC (snd (wire e (recvOneC t) n))) = more
      | [] => snd (wire e (recvOneC t) n) = n
      end).
Proof.
  split; [| split; [| split; [| split]]].
  - intros this. unfold isNonBlocking. rewrite land_DONTWAIT_testbit.
    reflexivity.
  - reflexivity.
  - intros handle [ty srv [ctx ident kp [nb] evb | ctx ident kp [nb] evb |]];
      unfold SocketImpl_ctor; cbn [initArgs nonblocking];
      try (destruct (negb (evb =? nullptr) && negb nb); [exact I |];
           destruct nb; split; reflexivity).
    split; reflexivity.
  - reflexivity.
  - intros e n t. cbn.
    destruct (inbox (endOf e n)) as [| [m more] q]; [reflexivity |].
    destruct e; cbn; split; reflexivity.
Qed.

(** ** Moving a socket *)

(** C9.  [SocketImpl] has no copy constructor and no copy assignment (both
    are deleted).  Moving a live socket, by construction or by assignment,
    gives the destination the source's raw handle, its registered
    event-loop interest and its waiter state, and leaves the source with a
    null handle: the source is no longer live. *)
Theorem socket_is_move_only :
  forall this other,
    live other = true ->
    let dst := fst (SocketImpl_move other) in
    let src := snd (SocketImpl_move other) in
    SocketImpl_special CopyConstructor = Deleted /\
    SocketImpl_special CopyAssignment = Deleted /\
    copyable = false /\
    ptr_ dst = ptr_ other /\
    waitEvents_ dst = waitEvents_ other /\
    fiberReadBaton_ dst = fiberReadBaton_ other /\
    fiberWriteBaton_ dst = fiberWriteBaton_ other /\
    live dst = true /\
    ptr_ src = nullptr /\
    live src = false /\
    SocketImpl_move_assign this other = SocketImpl_move other.
Proof.
  intros this other Hlive dst src. subst dst src. cbn.
  repeat split; try reflexivity. exact Hlive.
Qed.

Lemma socket_is_move_only_witness :
  let sock := mkSocketImpl ZMQ_DONTWAIT false 4096 512 None [] 0 1
                BatonWaiting BatonIdle in
  let empty := mkSocketImpl 0 false nullptr nullptr None [] 0 0
                 BatonIdle BatonIdle in
  live sock = true /\
  ptr_ (fst (SocketImpl_move_assign empty sock)) = 4096 /\
  waitEvents_ (fst (SocketImpl_move sock)) = 1 /\
  fiberReadBaton_ (fst (SocketImpl_move sock)) = BatonWaiting /\
  ptr_ (snd (SocketImpl_move sock)) = nullptr /\
  live (snd (SocketImpl_move sock)) = false.
Proof.
  intros sock empty.
  assert (L : live sock = true) by reflexivity.
  split; [exact L |].
  destruct (socket_is_move_only empty sock L)
    as (_ & _ & _ & Hp & Hw & Hr & _ & _ & Hn & Hi & Ha).
  rewrite Ha.
  split; [exact Hp |]. split; [exact Hw |]. split; [exact Hr |].
  split; [exact Hn | exact Hi].
Defined.

(** ** Round trip over the wire *)

Lemma endOf_setEnd :
  forall e ep n, endOf e (setEnd e ep n) = ep.
Proof. intros [] ep n; reflexivity. Qed.

(** A socket whose queue starts with the frames [fs] hands them out. *)
Lemma wire_delivers :
  forall fs e n rest,
    inbox (endOf e n) = fs ++ rest ->
    exists n', delivers (wire e) n fs n'.
Proof.
  induction fs as [| [m more] q IH]; intros e n rest Hin.
  - exists n. reflexivity.
  - pose (n1 := setEnd e (mkEndpoint (q ++ rest) more
                            (sendingMore (endOf e n))) n).
    destruct (IH e n1 rest) as (n' & D).
    { unfold n1. rewrite endOf_setEnd. reflexivity. }
    exists n'. cbn [delivers]. exists n1, n1. repeat split.
    + intros t. cbn. rewrite Hin. reflexivity.
    + cbn. unfold n1. rewrite endOf_setEnd. reflexivity.
    + exact D.
Qed.

(** What the static send leaves on the wire, and that the plain series of
    [sendMore] and [sendOne] leaves the same. *)
Lemma run_sendMultiple_wire :
  forall msgs msg n,
    let o := run (wire Local) (sendMultiple false msg msgs) n in
    inbox (peerEnd (final o)) = inbox (peerEnd n) ++ tagged msg msgs /\
    hasValue (result o) = true /\
    final (run (wire Local) (sendSeries msg msgs) n) = final o.
Proof.
  induction msgs as [| next rest IH]; intros msg n.
  - cbn. auto.
  - specialize (IH next (ship Local (msg, true) n)). cbv zeta in IH.
    destruct IH as (Hin & Hv & Hs).
    cbn [sendMultiple sendSeries tagged]. unfold sendMore, call.
    cbn [pbind run wire]. rewrite run_pbind. cbv zeta.
    cbn [result final trace]. rewrite Hs.
    destruct (result (run (wire Local) (sendMultiple false next rest)
                          (ship Local (msg, true) n))) as [k | e];
      [| discriminate Hv].
    cbn [run result final]. rewrite Hin. cbn [ship peerEnd setEnd endOf
      otherEnd inbox]. rewrite <- app_assoc. auto.
Qed.

Section DynamicReceive.
Variable S : Type.
Variable h : Impl S.

(** The loop of the dynamic receive, entered after the frame whose flag
    is [more] was taken: it collects the frames [fs] that follow. *)
Lemma run_recvFollowing :
  forall fs fuel msgs s1 s2 s' more,
    h hasMoreC s1 = (more, s2) ->
    more = match fs with [] => false | _ :: _ => true end ->
    delivers h s2
      match fs with [] => [] | g :: gs => tagged g gs end s' ->
    (length fs < fuel)%nat ->
    let o := run h (recvFollowing fuel msgs) s1 in
    result o = Some (msgs ++ fs) /\
    final o = s' /\
    trace o = EvHasMore more
                :: recvLog None
                     match fs with [] => [] | g :: gs => tagged g gs end.
Proof.
  induction fs as [| g gs IH]; intros fuel msgs s1 s2 s' more Hm Hf D Hlt;
    (destruct fuel as [| fuel]; [simpl in Hlt; lia |]);
    cbn [recvFollowing]; unfold hasMore, recvOne, call; cbn [pbind run];
    rewrite Hm; subst more; cbn [pbind run result final trace event_of].
  - cbn in D. subst s'. rewrite app_nil_r. auto.
  - assert (D' : exists s3 s4,
               (forall t, h (recvOneC t) s2 = (Value g, s3)) /\
               h hasMoreC s3 =
                 (match gs with [] => false | _ :: _ => true end, s4) /\
               delivers h s4
                 match gs with [] => [] | g' :: gs' => tagged g' gs' end s').
    { destruct gs as [| g' gs']; cbn in D;
        destruct D as (s3 & s4 & Hr & Hm' & D); exists s3, s4; auto. }
    destruct D' as (s3 & s4 & Hr & Hm' & D').
    rewrite (Hr None). cbn [pbind run].
    simpl in Hlt. assert (Hlt' : (length gs < fuel)%nat) by lia.
    destruct (IH fuel (msgs ++ [g]) s3 s4 s' _ Hm' eq_refl D' Hlt')
      as (Hres & Hfin & Htr).
    rewrite Hres, Hfin, Htr. rewrite <- app_assoc.
    repeat split. destruct gs; reflexivity.
Qed.

(** The dynamic receive against a socket that holds the message
    [f :: fs]: given fuel for its frames, it returns them all. *)
Lemma run_recvMultipleDynamic :
  forall f fs fuel t s s',
    delivers h s (tagged f fs) s' ->
    (length fs < fuel)%nat ->
    let o := run h (recvMultipleDynamic fuel t) s in
    result o = Some (Value (f :: fs)) /\
    final o = s' /\
    trace o = recvLog t (tagged f fs).
Proof.
  intros f fs fuel t s s' D Hlt.
  assert (D' : exists s1 s2,
             (forall t, h (recvOneC t) s = (Value f, s1)) /\
             h hasMoreC s1 =
               (match fs with [] => false | _ :: _ => true end, s2) /\
             delivers h s2
               match fs with [] => [] | g :: gs => tagged g gs end s').
  { destruct fs as [| g gs]; cbn in D;
      destruct D as (s1 & s2 & Hr & Hm & D); exists s1, s2; auto. }
  destruct D' as (s1 & s2 & Hr & Hm & D').
  destruct (@run_recvFollowing fs fuel [f] s1 s2 s' _ Hm eq_refl D' Hlt)
    as (Hres & Hfin & Htr).
  unfold recvMultipleDynamic, recvOne, call. cbn [pbind run].
  rewrite (Hr t). cbn [pbind run]. rewrite run_pbind. cbv zeta.
  rewrite Hres, Hfin, Htr. cbn [result final trace run option_map app].
  rewrite app_nil_r. repeat split. destruct fs; reflexivity.
Qed.
End DynamicReceive.

Lemma hasMoreAnswers_recvLog :
  forall fs t, hasMoreAnswers (recvLog t fs) = map snd fs.
Proof.
  induction fs as [| [m more] q IH]; intros t; simpl.
  - reflexivity.
  - rewrite IH. reflexivity.
Qed.

Lemma tagged_flags :
  forall msgs msg,
    map snd (tagged msg msgs) = repeat true (length msgs) ++ [false].
Proof.
  induction msgs as [| next rest IH]; intros msg; simpl.
  - reflexivity.
  - rewrite IH. reflexivity.
Qed.

(** C5.  Frames sent on one socket by the static [sendMultiple] (which
    leaves on the wire exactly what the series of [sendMore] calls closed
    by a [sendOne] leaves) reach a peer with nothing else to read as they
    were sent: the peer's dynamic [recvMultiple], given fuel for the
    frames, and its static receive with as many slots as frames, both
    return the same frames in the same order, and in both every receive is
    followed by a [hasMore] that is [true] for every frame but the last,
    where it is [false]. *)
Theorem multipart_round_trip :
  forall msg msgs n,
    inbox (peerEnd n) = [] ->
    let sent := run (wire Local) (sendMultiple false msg msgs) n in
    final (run (wire Local) (sendSeries msg msgs) n) = final sent /\
    hasValue (result sent) = true /\
    (forall t fuel,
        (length msgs < fuel)%nat ->
        let got := run (wire Peer) (recvMultipleDynamic fuel t) (final sent) in
        result got = Some (Value (msg :: msgs)) /\
        trace got = recvLog t (tagged msg msgs)) /\
    (forall t slot slots,
        length slots = length msgs ->
        let got :=
          run (wire Peer) (recvMultipleTimeout t slot slots) (final sent) in
        result got = (Value tt, msg :: msgs) /\
        trace got = recvLog t (tagged msg msgs)) /\
    (forall t,
        hasMoreAnswers (recvLog t (tagged msg msgs)) =
        repeat true (length msgs) ++ [false]).
Proof.
  intros msg msgs n Hempty sent.
  destruct (run_sendMultiple_wire msgs msg n) as (Hin & Hv & Hs).
  fold sent in Hin, Hv, Hs. rewrite Hempty in Hin. cbn [app] in Hin.
  destruct (wire_delivers (tagged msg msgs) Peer (final sent) [])
    as (n' & D); [rewrite app_nil_r; exact Hin |].
  split; [exact Hs |]. split; [exact Hv |]. split; [| split].
  - intros t fuel Hfuel got.
    destruct (@run_recvMultipleDynamic Net (wire Peer) msg msgs fuel t
                (final sent) n' D Hfuel) as (Hr & _ & Ht).
    split; [exact Hr | exact Ht].
  - intros t slot slots Hlen got.
    destruct (@run_recvMultipleTimeout Net (wire Peer) slots t slot msg msgs
                (final sent) n' D) as (Hr & Ht & _).
    fold got in Hr, Ht. rewrite Hr, Ht, Hlen, Nat.eqb_refl.
    rewrite <- (tagged_length msgs msg), firstn_all, tagged_length.
    change (Datatypes.S (length msgs)) with (length (msg :: msgs)) at 1.
    rewrite firstn_all.
    replace (Datatypes.S (length msgs)) with (length (slot :: slots))
      by (simpl; lia).
    rewrite skipn_all, app_nil_r. split; reflexivity.
  - intros t. rewrite hasMoreAnswers_recvLog. apply tagged_flags.
Qed.

Lemma multipart_round_trip_witness :
  inbox (peerEnd quiet) = [] /\
  let sent := run (wire Local)
                (sendMultiple false (frame "a") [frame "b"; frame "c"])
                quiet in
  result (run (wire Peer) (recvMultipleDynamic 3 None) (final sent)) =
    Some (Value [frame "a"; frame "b"; frame "c"]) /\
  result (run (wire Peer)
            (recvMultipleTimeout (Some 100) (frame "x")
               [frame "y"; frame "z"]) (final sent)) =
    (Value tt, [frame "a"; frame "b"; frame "c"]) /\
  hasMoreAnswers
    (trace (run (wire Peer) (recvMultipleDynamic 3 None) (final sent))) =
    [true; true; false].
Proof.
  assert (E : inbox (peerEnd quiet) = []) by reflexivity.
  split; [exact E |]. intros sent.
  destruct (multipart_round_trip (frame "a") [frame "b"; frame "c"] quiet E)
    as (_ & _ & Hd & Hst & Hm).
  destruct (Hd None 3%nat) as (Hr & Ht); [simpl; lia |].
  destruct (Hst (Some 100) (frame "x") [frame "y"; frame "z"] eq_refl)
    as (Hr' & _).
  split; [exact Hr |]. split; [exact Hr' |].
  fold sent in Ht. rewrite Ht. exact (Hm None).
Defined.


(** * Further properties of the inline code *)

(** ** The static receive, for every implementation *)

Ltac recv_step h t s :=
  cbn [recvMultipleTimeout]; unfold recvOne, hasMore, call;
  cbn [pbind run];
  let v := fresh "v" in
  let e := fresh "e" in
  let s1 := fresh "s1" in
  let s2 := fresh "s2" in
  destruct (h _ (recvOneC t) s) as [[v | e] s1]; cbn [pbind run];
  [destruct (h _ hasMoreC s1) as [[|] s2]; cbn [negb] |].

Lemma static_receive_log_nonempty :
  forall S (h : Impl S) slots t slot s,
    trace (run h (recvMultipleTimeout t slot slots) s) <> [].
Proof.
  intros S h slots t slot s. destruct slots as [| next rest];
    recv_step h t s; cbn; discriminate.
Qed.

Lemma run_static_receive_exact :
  forall S (h : Impl S) (s s' : S) t slot slots f fs,
    delivers h s (tagged f fs) s' ->
    length fs = length slots ->
    let o := run h (recvMultipleTimeout t slot slots) s in
    result o = (Value tt, f :: fs) /\
    trace o = recvLog t (tagged f fs) /\
    final o = s'.
Proof.
  intros S h s s' t slot slots f fs D Hlen o.
  destruct (@run_recvMultipleTimeout S h slots t slot f fs s s' D)
    as (Hr & Ht & Hd).
  fold o in Hr, Ht, Hd.
  assert (Hall : firstn (Datatypes.S (length slots)) (tagged f fs)
                 = tagged f fs).
  { rewrite <- Hlen, <- (tagged_length fs f). apply firstn_all. }
  assert (Hnone : skipn (Datatypes.S (length slots)) (tagged f fs) = []).
  { rewrite <- Hlen, <- (tagged_length fs f). apply skipn_all. }
  rewrite Hall in Ht. rewrite Hnone in Hd. cbn [delivers] in Hd.
  rewrite Hr, Hlen, Nat.eqb_refl.
  change (Datatypes.S (length slots)) with (length (slot :: slots)).
  rewrite skipn_all, app_nil_r.
  replace (length (slot :: slots)) with (length (f :: fs))
    by (simpl; lia).
  rewrite firstn_all. auto.
Qed.

(** X1.  When the socket holds a message with exactly as many frames as the
    static receive has slots, the call succeeds, every slot holds the frame
    of its position, the call made one [recvOne] and one [hasMore] per
    frame and nothing else, and it leaves the socket where the message
    ends. *)
Theorem static_receive_exact_arity :
  forall S (h : Impl S) (s s' : S) t slot slots f fs,
    delivers h s (tagged f fs) s' ->
    length fs = length slots ->
    let o := run h (recvMultipleTimeout t slot slots) s in
    result o = (Value tt, f :: fs) /\
    trace o = recvLog t (tagged f fs) /\
    final o = s'.
Proof.
  intros S h s s' t slot slots f fs D Hlen.
  exact (@run_static_receive_exact S h s s' t slot slots f fs D Hlen).
Qed.

Lemma static_receive_exact_arity_witness :
  delivers (wire Local)
    (holding [(frame "a", true); (frame "b", false)])
    (tagged (frame "a") [frame "b"]) quiet /\
  length [frame "b"] = length [frame "y"] /\
  let o := run (wire Local)
             (recvMultipleTimeout None (frame "x") [frame "y"])
             (holding [(frame "a", true); (frame "b", false)]) in
  result o = (Value tt, [frame "a"; frame "b"]) /\ final o = quiet.
Proof.
  assert (D : delivers (wire Local)
                (holding [(frame "a", true); (frame "b", false)])
                (tagged (frame "a") [frame "b"]) quiet).
  { simpl. do 2 eexists. split; [intros t; reflexivity |].
    split; [reflexivity |]. do 2 eexists.
    split; [intros t; reflexivity |]. split; reflexivity. }
  split; [exact D |]. split; [reflexivity |].
  destruct (@static_receive_exact_arity Net (wire Local) _ _ None
              (frame "x") [frame "y"] (frame "a") [frame "b"] D eq_refl)
    as (Hr & _ & Hf).
  split; [exact Hr | exact Hf].
Defined.

(** X2.  Whatever the socket does, a static receive that returns success
    has filled every slot: the slots hold as many received frames as there
    are slots, and the log is that of a message of exactly that many
    frames, each [hasMore] but the last answering [true] and the last
    [false]. *)
Theorem static_receive_success_means_full :
  forall S (h : Impl S) (s : S) t slot slots,
    let o := run h (recvMultipleTimeout t slot slots) s in
    fst (result o) = Value tt ->
    exists f fs,
      length fs = length slots /\
      snd (result o) = f :: fs /\
      trace o = recvLog t (tagged f fs).
Proof.
  intros S h s t slot slots. revert t slot s.
  induction slots as [| next rest IH]; intros t slot s; recv_step h t s;
    cbn [result fst snd trace event_of]; try discriminate.
  - intros _. exists v, []. auto.
  - rewrite run_pbind. cbv zeta. cbn [run result final trace fst snd].
    intros Hok. destruct (IH None next s2 Hok) as (f & fs & Hl & Hs & Ht).
    exists v, (f :: fs). rewrite Hs, Ht, app_nil_r. cbn. auto.
Qed.

Lemma static_receive_success_means_full_witness :
  let o := run (wire Local)
             (recvMultipleTimeout None (frame "x") [frame "y"])
             (holding [(frame "a", true); (frame "b", false)]) in
  fst (result o) = Value tt /\
  exists f fs,
    length fs = length [frame "y"] /\
    snd (result o) = f :: fs /\
    trace o = recvLog None (tagged f fs).
Proof.
  intros o.
  assert (H : fst (result o) = Value tt) by reflexivity.
  split; [exact H |].
  exact (@static_receive_success_means_full Net (wire Local) _ None
           (frame "x") [frame "y"] H).
Defined.

Lemma nextTimeout_none :
  forall pre, nextTimeout None pre = None.
Proof. intros [| f q]; reflexivity. Qed.

(** X3.  When the socket hands out the frames [pre], each flagged as
    continuing, and the receive that follows fails with [e], the static
    receive returns [e] as it is: the leading slots hold the frames that
    arrived, the slots from the failing one on keep what they held, the
    failing [recvOne] is the last call made, and it was given the caller's
    timeout only if it was the first receive. *)
Theorem static_receive_error_passthrough :
  forall S (h : Impl S) (s s1 s2 : S) t slot slots pre e,
    Forall (fun f => snd f = true) pre ->
    delivers h s pre s1 ->
    h _ (recvOneC (nextTimeout t pre)) s1 = (Unexpected e, s2) ->
    (length pre <= length slots)%nat ->
    let o := run h (recvMultipleTimeout t slot slots) s in
    result o =
      (Unexpected e, map fst pre ++ skipn (length pre) (slot :: slots)) /\
    final o = s2 /\
    trace o = recvLog t pre ++ [EvRecvOne (nextTimeout t pre) (Unexpected e)].
Proof.
  intros S h s s1 s2 t slot slots pre e. revert s t slot slots.
  induction pre as [| [m more] q IH]; intros s t slot slots Hall D Hfail Hlen.
  - cbn in D. subst s1. cbn [nextTimeout] in Hfail.
    destruct slots as [| next rest];
      cbn [recvMultipleTimeout]; unfold recvOne, hasMore, call;
      cbn [pbind run]; rewrite Hfail; cbn; auto.
  - inversion Hall as [| ? ? Hm Hq]; subst. cbn in Hm. subst more.
    destruct slots as [| next rest]; [simpl in Hlen; lia |].
    cbn [delivers] in D. destruct D as (sa & sb & Hr & Hh & D).
    cbn [nextTimeout] in Hfail.
    assert (Hfail' : h _ (recvOneC (nextTimeout None q)) s1 = (Unexpected e, s2))
      by (rewrite nextTimeout_none; exact Hfail).
    assert (Hlen' : (length q <= length rest)%nat) by (simpl in Hlen; lia).
    specialize (IH sb None next rest Hq D Hfail' Hlen').
    cbv zeta in IH. destruct IH as (IHr & IHf & IHt).
    cbn [recvMultipleTimeout]. unfold recvOne, hasMore, call.
    cbn [pbind run]. rewrite (Hr t). cbn [pbind run]. rewrite Hh.
    cbn [negb]. rewrite run_pbind. cbv zeta.
    cbn [run result final trace fst snd event_of].
    rewrite IHr, IHf, IHt, nextTimeout_none, app_nil_r. cbn. auto.
Qed.

Lemma static_receive_error_passthrough_witness :
  Forall (fun f => snd f = true) [(frame "a", true)] /\
  delivers (wire Local) (holding [(frame "a", true)]) [(frame "a", true)]
    (mkNet (mkEndpoint [] true false) (mkEndpoint [] false false)) /\
  (length [(frame "a", true)] <= length [frame "y"; frame "z"])%nat /\
  let o := run (wire Local)
             (recvMultipleTimeout (Some 100) (frame "x")
                [frame "y"; frame "z"])
             (holding [(frame "a", true)]) in
  result o =
    (Unexpected (mkError EINTR), [frame "a"; frame "y"; frame "z"]) /\
  trace o = [EvRecvOne (Some 100) (Value (frame "a")); EvHasMore true;
             EvRecvOne None (Unexpected (mkError EINTR))].
Proof.
  assert (A : Forall (fun f : Frame => snd f = true) [(frame "a", true)])
    by (repeat constructor).
  assert (D : delivers (wire Local) (holding [(frame "a", true)])
                [(frame "a", true)]
                (mkNet (mkEndpoint [] true false)
                       (mkEndpoint [] false false))).
  { simpl. do 2 eexists. split; [intros t; reflexivity |].
    split; reflexivity. }
  assert (L : (length [(frame "a", true)]
               <= length [frame "y"; frame "z"])%nat) by (simpl; lia).
  split; [exact A |]. split; [exact D |]. split; [exact L |].
  destruct (@static_receive_error_passthrough Net (wire Local) _ _
              (mkNet (mkEndpoint [] true false) (mkEndpoint [] false false))
              (Some 100) (frame "x") [frame "y"; frame "z"]
              [(frame "a", true)] (mkError EINTR) A D eq_refl L)
    as (Hr & _ & Ht).
  split; [exact Hr | exact Ht].
Defined.

(** X4.  Whatever the socket does, a static receive leaves as many slots
    as it was given: the frames it received, in order, in the leading
    slots, and the slots it did not reach with the contents they had. *)
Theorem static_receive_keeps_unreached_slots :
  forall S (h : Impl S) (s : S) t slot slots,
    let o := run h (recvMultipleTimeout t slot slots) s in
    snd (result o) =
      received (trace o)
        ++ skipn (length (received (trace o))) (slot :: slots) /\
    length (snd (result o)) = Datatypes.S (length slots).
Proof.
  intros S h s t slot slots. revert t slot s.
  induction slots as [| next rest IH]; intros t slot s; recv_step h t s;
    cbn [result fst snd trace event_of received length app skipn];
    auto.
  rewrite run_pbind. cbv zeta. cbn [run result final trace fst snd].
  destruct (IH None next s2) as (Hs & Hl).
  rewrite app_nil_r. cbn [received length skipn app].
  rewrite Hl. split; [f_equal; exact Hs | reflexivity].
Qed.

(** X5.  Whatever the socket does, a static receive calls nothing but
    [recvOne] and [hasMore]; it makes at most one [recvOne] per slot, and
    one [hasMore] for each [recvOne] that brought a frame. *)
Theorem static_receive_calls :
  forall S (h : Impl S) (s : S) t slot slots,
    let o := run h (recvMultipleTimeout t slot slots) s in
    receivesOnly (trace o) = true /\
    (length (recvTimeouts (trace o)) <= Datatypes.S (length slots))%nat /\
    length (hasMoreAnswers (trace o)) = length (received (trace o)).
Proof.
  intros S h s t slot slots. revert t slot s.
  induction slots as [| next rest IH]; intros t slot s; recv_step h t s;
    cbn; auto with arith.
  rewrite run_pbind. cbv zeta. cbn [run result final trace].
  destruct (IH None next s2) as (Ho & Hn & Hm).
  rewrite app_nil_r. repeat split.
  - exact Ho.
  - simpl in *. lia.
  - simpl. f_equal. exact Hm.
Qed.

(** X6.  Whatever the socket does, the value a static receive returns is
    decided by the last call it made.  If that was a [recvOne] it had
    failed, and its error is returned unchanged.  If it was a [hasMore]
    that answered [true], every slot was filled and [EPROTO] is returned.
    If it was a [hasMore] that answered [false], the call succeeds when
    every slot was filled and returns [EPROTO] otherwise.  No other call
    ends a static receive. *)
Theorem static_receive_outcome_by_last_call :
  forall S (h : Impl S) (s : S) t slot slots,
    let o := run h (recvMultipleTimeout t slot slots) s in
    let N := Datatypes.S (length slots) in
    match last (trace o) (EvHasMore false) with
    | EvRecvOne _ (Unexpected e) => fst (result o) = Unexpected e
    | EvHasMore true =>
        fst (result o) = Unexpected (mkError EPROTO) /\
        length (received (trace o)) = N
    | EvHasMore false =>
        fst (result o) =
          if Nat.eqb (length (received (trace o))) N
          then Value tt else Unexpected (mkError EPROTO)
    | _ => False
    end.
Proof.
  intros S h s t slot slots. revert t slot s.
  induction slots as [| next rest IH]; intros t slot s; recv_step h t s;
    try solve [cbn; auto].
  rewrite run_pbind. cbv zeta.
  cbn [run result final trace fst snd event_of].
  rewrite app_nil_r.
  pose proof (@static_receive_log_nonempty S h rest None next s2) as Hne.
  rewrite !last_skip_head by (exact Hne || discriminate).
  specialize (IH None next s2). cbv zeta in IH.
  cbn [received length Nat.eqb].
  destruct (last (trace (run h (recvMultipleTimeout None next rest) s2))
                 (EvHasMore false)) as [t' [m | e] | [|] | | | | | | | |];
    try exact IH.
  destruct IH as (He & Hl). split; [exact He | f_equal; exact Hl].
Qed.

Lemma skipn_tagged_app :
  forall fs1 f g gs,
    skipn (Datatypes.S (length fs1)) (tagged f (fs1 ++ g :: gs)) =
    tagged g gs.
Proof.
  induction fs1 as [| a rest IH]; intros f g gs.
  - reflexivity.
  - cbn [app length tagged]. rewrite skipn_cons. apply IH.
Qed.

(** X7.  Frames beyond the slots are not lost.  When the socket holds a
    message of [N + M] frames, a static receive with [N] slots returns
    [EPROTO] with the first [N] frames in its slots, and a static receive
    with [M] slots made next succeeds with the remaining [M] frames and
    leaves the socket where the message ends. *)
Theorem static_receive_resumes_after_surplus :
  forall S (h : Impl S) (s s' : S) t t' slot slots slot' slots' f fs g gs,
    delivers h s (tagged f (fs ++ g :: gs)) s' ->
    length fs = length slots ->
    length gs = length slots' ->
    let o := run h (recvMultipleTimeout t slot slots) s in
    let o' := run h (recvMultipleTimeout t' slot' slots') (final o) in
    result o = (Unexpected (mkError EPROTO), f :: fs) /\
    result o' = (Value tt, g :: gs) /\
    final o' = s'.
Proof.
  intros S h s s' t t' slot slots slot' slots' f fs g gs D Hl Hl' o o'.
  destruct (@run_recvMultipleTimeout S h slots t slot f (fs ++ g :: gs)
              s s' D) as (Hr & _ & Hd).
  fold o in Hr, Hd. rewrite <- Hl, skipn_tagged_app in Hd.
  destruct (@run_static_receive_exact S h (final o) s' t' slot' slots'
              g gs Hd Hl') as (Hr' & _ & Hf').
  fold o' in Hr', Hf'. split; [| split; [exact Hr' | exact Hf']].
  rewrite Hr. f_equal.
  - assert (Hne : Nat.eqb (length (fs ++ g :: gs)) (length slots) = false).
    { apply Nat.eqb_neq. rewrite length_app. simpl. lia. }
    rewrite Hne. reflexivity.
  - assert (A1 : firstn (Datatypes.S (length slots)) (f :: fs ++ g :: gs)
                 = f :: fs).
    { rewrite <- Hl. cbn [firstn]. f_equal.
      rewrite firstn_app, firstn_all, Nat.sub_diag. cbn [firstn].
      apply app_nil_r. }
    assert (A2 : skipn (Datatypes.S (length (fs ++ g :: gs))) (slot :: slots)
                 = []).
    { apply skipn_all2. rewrite length_app. simpl. lia. }
    rewrite A1, A2. apply app_nil_r.
Qed.

Lemma static_receive_resumes_after_surplus_witness :
  delivers (wire Local)
    (holding [(frame "a", true); (frame "b", true); (frame "c", false)])
    (tagged (frame "a") ([] ++ frame "b" :: [frame "c"])) quiet /\
  let o := run (wire Local) (recvMultipleTimeout (Some 100) (frame "x") [])
             (holding [(frame "a", true); (frame "b", true);
                       (frame "c", false)]) in
  let o' := run (wire Local)
              (recvMultipleTimeout None (frame "y") [frame "z"]) (final o) in
  result o = (Unexpected (mkError EPROTO), [frame "a"]) /\
  result o' = (Value tt, [frame "b"; frame "c"]) /\
  final o' = quiet.
Proof.
  assert (D : delivers (wire Local)
                (holding [(frame "a", true); (frame "b", true);
                          (frame "c", false)])
                (tagged (frame "a") ([] ++ frame "b" :: [frame "c"])) quiet).
  { simpl. do 2 eexists. split; [intros t; reflexivity |].
    split; [reflexivity |]. do 2 eexists.
    split; [intros t; reflexivity |]. split; [reflexivity |].
    do 2 eexists. split; [intros t; reflexivity |]. split; reflexivity. }
  split; [exact D |].
  exact (@static_receive_resumes_after_surplus Net (wire Local) _ _
           (Some 100) None (frame "x") [] (frame "y") [frame "z"]
           (frame "a") [] (frame "b") [frame "c"] D eq_refl eq_refl).
Defined.

(** X13.  The slots are outputs only: what they hold before the call has
    no influence on what a static receive returns, on the calls it makes or
    on the state it leaves. *)
Theorem static_receive_ignores_slot_contents :
  forall S (h : Impl S) (s : S) t slot slots slot' slots',
    length slots = length slots' ->
    let o := run h (recvMultipleTimeout t slot slots) s in
    let o' := run h (recvMultipleTimeout t slot' slots') s in
    fst (result o) = fst (result o') /\
    trace o = trace o' /\
    final o = final o'.
Proof.
  intros S h s t slot slots. revert t slot s.
  induction slots as [| next rest IH]; intros t slot s slot' slots' Hlen;
    destruct slots' as [| next' rest']; try discriminate Hlen;
    recv_step h t s; try solve [cbn; auto].
  rewrite !run_pbind. cbv zeta. cbn [run result final trace fst snd].
  injection Hlen as Hlen.
  destruct (IH None next s2 next' rest' Hlen) as (Hr & Ht & Hf).
  rewrite Hr, Ht, Hf. auto.
Qed.

Lemma static_receive_ignores_slot_contents_witness :
  length [frame "y"] = length [frame "q"] /\
  let net := holding [(frame "a", true); (frame "b", false)] in
  let o := run (wire Local)
             (recvMultipleTimeout None (frame "x") [frame "y"]) net in
  let o' := run (wire Local)
              (recvMultipleTimeout None (frame "p") [frame "q"]) net in
  fst (result o) = fst (result o') /\ trace o = trace o' /\
  final o = final o'.
Proof.
  split; [reflexivity |].
  exact (@static_receive_ignores_slot_contents Net (wire Local)
           (holding [(frame "a", true); (frame "b", false)]) None
           (frame "x") [frame "y"] (frame "p") [frame "q"] eq_refl).
Defined.

(** ** The static send, for every implementation *)

Lemma size_add_assoc :
  forall a b c, size_add a (size_add b c) = size_add (size_add a b) c.
Proof.
  intros a b c. unfold size_add.
  rewrite Z.add_mod_idemp_r, Z.add_mod_idemp_l by (compute; discriminate).
  f_equal. lia.
Qed.

(** X8.  Whatever the sends return, [sendMultipleMore(m1, ..., mN)] makes
    only send calls, every one of them a [sendMore]: either all frames
    went out in order with the "more" flag and the byte counts added up
    (in [size_t]) are returned, or some [sendMore] failed, the frames
    before it went out, the failing call is the last one made and its
    error is returned. *)
Theorem sendMultipleMore_frames_sum_first_error :
  forall S (h : Impl S) (s : S) msg msgs,
    let o := run h (sendMultipleMore msg msgs) s in
    let fs := allMore msg msgs in
    length (sends (trace o)) = length (trace o) /\
    ((exists n ns,
         length (n :: ns) = length fs /\
         sends (trace o) = okSends fs (n :: ns) /\
         result o = Value (size_total n ns))
     \/
     (exists ns m e,
         nth_error fs (length ns) = Some (m, true) /\
         sends (trace o) = okSends fs ns ++ [(m, true, Unexpected e)] /\
         result o = Unexpected e)).
Proof.
  intros S h s msg msgs. unfold sendMultipleMore. revert msg s.
  induction msgs as [| next rest IH]; intros msg s.
  - cbn [sendMultiple allMore map]. unfold sendMore. rewrite run_call.
    destruct (h _ (sendMoreC msg) s) as [[n | e] s1]; cbn.
    + split; [reflexivity |]. left. exists n, []. cbn. auto.
    + split; [reflexivity |]. right. exists [], msg, e. cbn. auto.
  - cbn [sendMultiple]. unfold sendMore, call. cbn [pbind run].
    destruct (h _ (sendMoreC msg) s) as [[n | e] s1]; cbn [pbind run].
    + rewrite run_pbind. specialize (IH next s1). cbv zeta in IH.
      unfold sendMore, call in IH.
      destruct IH as (Hlen & IH).
      destruct IH as [(n' & ns & Hl & Hs & Hr)
                     | (ns & m & e & Hn & Hs & Hr)];
        cbv zeta; rewrite Hr;
        cbn [run result final trace event_of sends length];
        rewrite app_nil_r, Hlen; (split; [reflexivity |]).
      * left. exists n, (n' :: ns). rewrite Hs.
        unfold allMore in *. cbn [length map] in *.
        repeat split; try (f_equal; lia); reflexivity.
      * right. exists (n :: ns), m, e. rewrite Hs. cbn. auto.
    + cbn. split; [reflexivity |]. right. exists [], msg, e. cbn. auto.
Qed.

(** X9.  Shipping a message in two calls is shipping it in one.  For every
    implementation, [sendMultipleMore] on the leading frames followed, if
    it succeeded, by [sendMultiple] on the remaining ones makes the same
    calls, leaves the same state and returns the same value (the same
    byte count or the same first error) as one [sendMultiple] on all the
    frames; in particular [sendMultipleMore(a, b)] then [sendOne(c)] is
    [sendMultiple(a, b, c)]. *)
Theorem sendMultiple_in_two_calls :
  forall S (h : Impl S) (s : S) hasMore msg msgs msg' msgs',
    run h (sendMultiple hasMore msg (msgs ++ msg' :: msgs')) s =
    run h (sendInTwo hasMore msg msgs msg' msgs') s.
Proof.
  intros S h s hasMore msg msgs msg' msgs'. revert msg s.
  unfold sendInTwo, sendMultipleMore.
  induction msgs as [| next rest IH]; intros msg s.
  - reflexivity.
  - cbn [app sendMultiple]. rewrite !run_pbind. cbv zeta.
    unfold sendMore. rewrite !run_call. cbn [result final trace].
    destruct (h _ (sendMoreC msg) s) as [[n | e] s1]; cbn [fst snd];
      [| reflexivity].
    rewrite !run_pbind. cbv zeta. rewrite IH. rewrite !run_pbind. cbv zeta.
    destruct (run h (sendMultiple true next rest) s1) as [[nA | eA] sA trA];
      cbn [result final trace run app]; [| rewrite ?app_nil_r; reflexivity].
    rewrite !run_pbind. cbv zeta.
    destruct (run h (sendMultiple hasMore msg' msgs') sA)
      as [[nB | eB] sB trB]; cbn [result final trace run app];
      rewrite ?app_nil_r, ?size_add_assoc; reflexivity.
Qed.

(** ** The thrift receive on a multi-part message *)

(** X10.  [recvThriftObj] takes one frame and never asks [hasMore].  When
    the socket holds frames, it returns what decoding the first frame
    gives; the frames after it are still on the socket, and a [hasMore]
    made after the call reports the flag of the frame that was decoded. *)
Theorem recvThriftObj_takes_one_frame :
  forall (ThriftType Serializer : Type)
         (readThriftObj : Message -> Serializer -> Expected ThriftType Error)
         S (h : Impl S) (s s' : S) serializer timeout m more rest,
    delivers h s ((m, more) :: rest) s' ->
    let r := run h (recvThriftObj readThriftObj serializer timeout) s in
    result r = readThriftObj m serializer /\
    trace r = [EvRecvOne timeout (Value m)] /\
    exists s2,
      h _ hasMoreC (final r) = (more, s2) /\ delivers h s2 rest s'.
Proof.
  intros ThriftType Serializer readThriftObj S h s s' serializer timeout
         m more rest D r.
  cbn [delivers] in D. destruct D as (s1 & s2 & Hr & Hm & D).
  subst r. unfold recvThriftObj, recvOne, call. cbn [pbind run].
  rewrite (Hr timeout). cbn. repeat split. exists s2. auto.
Qed.

Lemma recvThriftObj_takes_one_frame_witness :
  let decode := fun (m : Message) (_ : unit) =>
                  @Value nat Error (length m) in
  delivers (wire Local)
    (holding [(frame "ab", true); (frame "c", false)])
    [(frame "ab", true); (frame "c", false)] quiet /\
  let r := run (wire Local) (recvThriftObj decode tt (Some 100))
             (holding [(frame "ab", true); (frame "c", false)]) in
  result r = Value 2%nat /\
  fst (wire Local hasMoreC (final r)) = true.
Proof.
  intros decode.
  assert (D : delivers (wire Local)
                (holding [(frame "ab", true); (frame "c", false)])
                [(frame "ab", true); (frame "c", false)] quiet).
  { simpl. do 2 eexists. split; [intros t; reflexivity |].
    split; [reflexivity |]. do 2 eexists.
    split; [intros t; reflexivity |]. split; reflexivity. }
  split; [exact D |].
  destruct (@recvThriftObj_takes_one_frame nat unit decode Net (wire Local)
              _ _ tt (Some 100) _ _ _ D) as (Hr & _ & s2 & Hm & _).
  split; [exact Hr |]. cbv zeta. rewrite Hm. reflexivity.
Defined.

(** ** The roles *)

(** X11.  The two roles split the six protected methods between them:
    every one of them is made public by exactly one of the server and the
    client sub-class, so a call that compiles on a server socket does not
    compile on a client socket and the other way round; on the
    forward-declared [Socket<T, UNKNOWN>] none compiles. *)
Theorem roles_partition_protected_methods :
  forall c,
    ((Socket_call ZMQ_SERVER c <> None /\ Socket_call ZMQ_CLIENT c = None) \/
     (Socket_call ZMQ_SERVER c = None /\ Socket_call ZMQ_CLIENT c <> None)) /\
    Socket_call UNKNOWN c = None.
Proof.
  intros c. split; [| reflexivity].
  destruct c; cbn;
    ((left; split; [discriminate | reflexivity])
     || (right; split; [reflexivity | discriminate])).
Qed.

(** ** Exceptions that can reach the caller *)

Lemma all_decls_throwing_exactly :
  forallb (throwing_exactly multiframe_operations) all_decls = true.
Proof. vm_compute. reflexivity. Qed.

Lemma existsb_eqb_In :
  forall name names,
    existsb (String.eqb name) names = true <-> In name names.
Proof.
  intros name names. rewrite existsb_exists. split.
  - intros (x & Hin & Heq). apply String.eqb_eq in Heq. subst x. exact Hin.
  - intros Hin. exists name. split; [exact Hin | apply String.eqb_refl].
Qed.

(** X12.  Among the declared member functions that return an [Expected],
    the ones without [noexcept] are exactly the multi-frame operations
    ([recvMultipleTimeout], [recvMultiple], [drain], [sendMultiple],
    [sendMultipleMore]): an exception thrown inside one of those reaches
    the caller, while every other [Expected]-returning member never lets
    one out. *)
Theorem only_multiframe_operations_may_throw :
  forall d,
    In d all_decls ->
    isExpected (declReturn d) = true ->
    (declNoexcept d = false <-> In (declName d) multiframe_operations) /\
    (forall A, invoke d (@Throws A) = Throws <->
               In (declName d) multiframe_operations).
Proof.
  intros d Hin Hexp.
  pose proof (proj1 (forallb_forall _ all_decls)
                    all_decls_throwing_exactly d Hin) as H.
  unfold throwing_exactly in H. rewrite Hexp in H. cbn [implb] in H.
  apply Bool.eqb_prop in H.
  assert (Hiff : declNoexcept d = false <->
                 In (declName d) multiframe_operations).
  { rewrite <- existsb_eqb_In, <- H. destruct (declNoexcept d); cbn;
      split; congruence. }
  split; [exact Hiff |].
  intros A. rewrite <- Hiff. unfold invoke.
  destruct (declNoexcept d); split; congruence.
Qed.

Lemma only_multiframe_operations_may_throw_witness :
  let d := mkDecl "drain" Public (RExpected "std::vector<Message>") false in
  In d all_decls /\
  isExpected (declReturn d) = true /\
  In (declName d) multiframe_operations /\
  invoke d (@Throws nat) = Throws.
Proof.
  intros d.
  assert (Hin : In d all_decls).
  { unfold all_decls, SocketImpl_decls. apply in_or_app. left.
    do 9 right. left. reflexivity. }
  assert (Hexp : isExpected (declReturn d) = true) by reflexivity.
  destruct (@only_multiframe_operations_may_throw d Hin Hexp) as (H1 & H2).
  split; [exact Hin |]. split; [exact Hexp |].
  split; [exact (proj1 H1 eq_refl) | exact (proj2 (H2 nat) (proj1 H1 eq_refl))].
Defined.
